(** * Ingest-process routes of api-v2: a shallow embedding

    The development follows [api/routes/ingest.py] and
    [api/models/ingest.py].  Handlers are written in a small state and
    exception monad over a world made of the committed database, the
    working copy of the open session, and the calls issued to the object
    store.  Python dictionaries and model instances are finite maps keyed
    by attribute name; tables are lists of rows in insertion order. *)

From stdpp Require Import gmap strings list fin_maps pretty.

Open Scope Z_scope.
Open Scope string_scope.

(** ** Python values and exceptions *)

#[warnings="-register-all"]
Inductive pyval :=
| PNone
| PInt (z : Z)
| PStr (s : string)
| PList (l : list pyval).

Inductive exn :=
| HTTPException (status_code : Z) (detail : string)
| AttributeError (msg : string)
| TypeError (msg : string)
| KeyError (key : string)
| IndexError (msg : string)
| IntegrityError (msg : string)
| StatementError (msg : string)
| ValidationError (msg : string)
| OtherError (msg : string).

(** [str(e)], as interpolated by an f-string. *)
Definition exn_str (e : exn) : string :=
  match e with
  | HTTPException c d => pretty c +:+ ": " +:+ d
  | KeyError k => "'" +:+ k +:+ "'"
  | AttributeError m | TypeError m | IndexError m | IntegrityError m
  | StatementError m | ValidationError m | OtherError m => m
  end.

Inductive outcome (A : Type) :=
| Return (a : A)
| Raise (e : exn).
Arguments Return {A} a.
Arguments Raise {A} e.

(** Attribute access on a value that may be [None]. *)
Definition getattr_opt {A B : Type} (o : option A) (attr : string) (proj : A → B)
  : outcome B :=
  match o with
  | Some a => Return (proj a)
  | None => Raise (AttributeError
              ("'NoneType' object has no attribute '" +:+ attr +:+ "'"))
  end.

(** Iterating a value in a comprehension that expects strings. *)
Definition iter_strings (v : pyval) : outcome (list string) :=
  match v with
  | PList l =>
      foldr (λ x acc,
               match x, acc with
               | PStr s, Return ss => Return (s :: ss)
               | _, Raise e => Raise e
               | _, _ => Raise (StatementError "tag is not a string")
               end) (Return []) l
  | PStr s => Return ((λ c, String c EmptyString) <$> String.list_ascii_of_string s)
  | PNone => Raise (TypeError "'NoneType' object is not iterable")
  | PInt _ => Raise (TypeError "'int' object is not iterable")
  end.

(** ** Pydantic models ([api/models/ingest.py]) *)

Module IngestProcessModel.

(** An instance: its class, its [__dict__] and the set of fields that were
    given explicitly when it was built. *)
Record BaseModel := {
  class_name : string;
  fields : gmap string pyval;
  fields_set : gset string
}.

(** [cls.model_construct] on keyword values: an instance built from field values
    that are taken as they are.  Every declared field that is not given gets
    its default, [None]; keys that are not declared are dropped
    ([extra = "ignore"]); the fields set are the declared ones given. *)
Definition model_construct (cls : string) (names : list string)
    (kwargs : gmap string pyval) : BaseModel :=
  {| class_name := cls;
     fields := list_to_map ((λ f, (f, default PNone (kwargs !! f))) <$> names);
     fields_set := dom kwargs ∩ list_to_set names |}.

Definition Post_fields : list string :=
  ["state"; "comments"; "source_id"; "access_group_id"].

(** The [Post] instance that holds the given field values. *)
Definition Post (kwargs : gmap string pyval) : BaseModel :=
  model_construct "Post" Post_fields kwargs.

(** [class Patch(Post): pass] *)
Definition Patch (kwargs : gmap string pyval) : BaseModel :=
  model_construct "Patch" Post_fields kwargs.

(** The annotations of the fields: [Optional[int]], [Optional[str]], an
    optional enumeration given by the values of its members, and a required
    [list[str]]. *)
Inductive field_type :=
| OptInt
| OptStr
| OptEnum (members : list string)
| ReqStrList.

Definition is_PStr (v : pyval) : bool :=
  match v with PStr _ => true | _ => false end.


Section Validation.

(** Modelled from the spec: the members of [IngestState] are declared in
    [api/schemas.py], which is not part of the sources at hand; the state is
    one of a fixed finite set of values. *)
Context (IngestState : list string).

(** The conversion of a string to an integer that the validation applies
    to an [int] field; it belongs to the validation library. *)
Context (str_as_int : string → option Z).

Definition Post_schema : list (string * field_type) :=
  [("state", OptEnum IngestState); ("comments", OptStr);
   ("source_id", OptInt); ("access_group_id", OptInt)].

(** The value a field holds for the value given in the request; [None] when
    the value is refused. *)
Definition coerce (ty : field_type) (v : pyval) : option pyval :=
  match ty, v with
  | (OptInt | OptStr | OptEnum _), PNone => Some PNone
  | OptInt, PInt z => Some (PInt z)
  | OptInt, PStr s => PInt <$> str_as_int s
  | OptStr, PStr s => Some (PStr s)
  | OptEnum members, PStr s =>
      if decide (s ∈ members) then Some (PStr s) else None
  | ReqStrList, PList l => if forallb is_PStr l then Some (PList l) else None
  | _, _ => None
  end.

(** The field values of a request body: every declared field that is given
    is converted, a required field has to be given, and the other keys of the
    body are not looked at. *)
Definition validated_fields (schema : list (string * field_type))
    (body : gmap string pyval) : option (gmap string pyval) :=
  foldr (λ '(name, ty) acc,
           m ← acc;
           match body !! name with
           | Some v => v' ← coerce ty v; Some (<[name := v']> m)
           | None =>
               match ty with
               | ReqStrList => None
               | _ => Some m
               end
           end) (Some ∅) schema.

(** [cls.model_validate(body)], as applied to the body of a request. *)
Definition model_validate (cls : string) (schema : list (string * field_type))
    (body : gmap string pyval) : outcome BaseModel :=
  match validated_fields schema body with
  | Some kwargs => Return (model_construct cls (schema.*1) kwargs)
  | None => Raise (ValidationError ("validation error for " +:+ cls))
  end.

Definition Post_validate (body : gmap string pyval) : outcome BaseModel :=
  model_validate "Post" Post_schema body.

Definition Patch_validate (body : gmap string pyval) : outcome BaseModel :=
  model_validate "Patch" Post_schema body.

End Validation.

Record Get := {
  state : option string;
  comments : option string;
  source_id : option Z;
  access_group_id : option Z;
  id : Z;
  object_group_id : Z;
  created_on : Z;
  completed_on : option Z
}.

(** Modelled from the spec: the [Tag] request model is used by the add-tag
    route but is not declared in [api/models/ingest.py]; add-tag takes one
    tag string. *)
Record Tag := { tag : string }.

Definition getattr (o : BaseModel) (name : string) : outcome pyval :=
  match fields o !! name with
  | Some v => Return v
  | None => Raise (AttributeError
              ("'" +:+ class_name o +:+ "' object has no attribute '"
                   +:+ name +:+ "'"))
  end.

Definition delattr (o : BaseModel) (name : string) : outcome BaseModel :=
  match fields o !! name with
  | Some _ => Return {| class_name := class_name o;
                        fields := delete name (fields o);
                        fields_set := fields_set o |}
  | None => Raise (AttributeError
              ("'" +:+ class_name o +:+ "' object has no attribute '"
                   +:+ name +:+ "'"))
  end.

Definition model_dump (o : BaseModel) : gmap string pyval := fields o.

Definition model_dump_exclude_unset (o : BaseModel) : gmap string pyval :=
  filter (λ kv, kv.1 ∈ fields_set o) (fields o).

End IngestProcessModel.

(** ** Database schema

    Modelled from the spec: [api/schemas.py] (the tables [IngestProcess],
    [IngestProcessTag], [ObjectGroup], [Object] and [Sources]) is not part of
    the sources at hand.  Columns follow the data model of the
    specification; [source_id] is a foreign key to [Sources]; identifiers
    and [created_on] are assigned by the server; the tags of a process are
    the tag rows that carry its id, in insertion order, and the pair
    (process id, tag) is not constrained to be unique. *)

Module IngestProcessSchema.

Record t := {
  id : Z;
  state : option string;
  comments : option string;
  source_id : option Z;
  access_group_id : option Z;
  object_group_id : Z;
  created_on : Z;
  completed_on : option Z
}.

Definition columns : list string :=
  ["id"; "state"; "comments"; "source_id"; "access_group_id";
   "object_group_id"; "created_on"; "completed_on"].

Definition of_str (o : option string) : pyval := from_option PStr PNone o.
Definition of_int (o : option Z) : pyval := from_option PInt PNone o.

Definition to_str (v : pyval) : option (option string) :=
  match v with PNone => Some None | PStr s => Some (Some s) | _ => None end.
Definition to_int (v : pyval) : option (option Z) :=
  match v with PNone => Some None | PInt z => Some (Some z) | _ => None end.
Definition to_int_nn (v : pyval) : option Z :=
  match v with PInt z => Some z | _ => None end.

(** Reading a column by name. *)
Definition get (r : t) (c : string) : option pyval :=
  if decide (c = "id") then Some (PInt (id r))
  else if decide (c = "state") then Some (of_str (state r))
  else if decide (c = "comments") then Some (of_str (comments r))
  else if decide (c = "source_id") then Some (of_int (source_id r))
  else if decide (c = "access_group_id") then Some (of_int (access_group_id r))
  else if decide (c = "object_group_id") then Some (PInt (object_group_id r))
  else if decide (c = "created_on") then Some (PInt (created_on r))
  else if decide (c = "completed_on") then Some (of_int (completed_on r))
  else None.

(** Writing a column by name; [None] when the name is not a column or the
    value does not fit the column type. *)
Definition set (c : string) (v : pyval) (r : t) : option t :=
  if decide (c = "id") then
    x ← to_int_nn v;
    Some {| id := x; state := state r; comments := comments r;
            source_id := source_id r; access_group_id := access_group_id r;
            object_group_id := object_group_id r;
            created_on := created_on r; completed_on := completed_on r |}
  else if decide (c = "state") then
    x ← to_str v;
    Some {| id := id r; state := x; comments := comments r;
            source_id := source_id r; access_group_id := access_group_id r;
            object_group_id := object_group_id r;
            created_on := created_on r; completed_on := completed_on r |}
  else if decide (c = "comments") then
    x ← to_str v;
    Some {| id := id r; state := state r; comments := x;
            source_id := source_id r; access_group_id := access_group_id r;
            object_group_id := object_group_id r;
            created_on := created_on r; completed_on := completed_on r |}
  else if decide (c = "source_id") then
    x ← to_int v;
    Some {| id := id r; state := state r; comments := comments r;
            source_id := x; access_group_id := access_group_id r;
            object_group_id := object_group_id r;
            created_on := created_on r; completed_on := completed_on r |}
  else if decide (c = "access_group_id") then
    x ← to_int v;
    Some {| id := id r; state := state r; comments := comments r;
            source_id := source_id r; access_group_id := x;
            object_group_id := object_group_id r;
            created_on := created_on r; completed_on := completed_on r |}
  else if decide (c = "object_group_id") then
    x ← to_int_nn v;
    Some {| id := id r; state := state r; comments := comments r;
            source_id := source_id r; access_group_id := access_group_id r;
            object_group_id := x;
            created_on := created_on r; completed_on := completed_on r |}
  else if decide (c = "created_on") then
    x ← to_int_nn v;
    Some {| id := id r; state := state r; comments := comments r;
            source_id := source_id r; access_group_id := access_group_id r;
            object_group_id := object_group_id r;
            created_on := x; completed_on := completed_on r |}
  else if decide (c = "completed_on") then
    x ← to_int v;
    Some {| id := id r; state := state r; comments := comments r;
            source_id := source_id r; access_group_id := access_group_id r;
            object_group_id := object_group_id r;
            created_on := created_on r; completed_on := x |}
  else None.

(** Assigning the columns named in [d], in column order. *)
Definition assign (cols : list string) (d : gmap string pyval) (r : t)
  : option t :=
  foldr (λ c acc,
           r' ← acc;
           match d !! c with
           | Some v => set c v r'
           | None => Some r'
           end) (Some r) cols.

(** [**d] used as column values: every key has to name a column. *)
Definition values (d : gmap string pyval) (r : t) : option t :=
  if decide (dom d ⊆ list_to_set columns) then assign columns d r else None.

End IngestProcessSchema.

Module IngestProcessTag.
Record t := { ingest_process_id : Z; tag : string }.
End IngestProcessTag.

Module Object.
(** [pre_signed_url] is never stored: it is attached to the loaded
    objects of one listing call. *)
Record t := {
  object_group_id : Z;
  host : string;
  bucket : string;
  key : string;
  pre_signed_url : option string
}.

Definition with_url (o : t) (url : string) : t :=
  {| object_group_id := object_group_id o; host := host o;
     bucket := bucket o; key := key o; pre_signed_url := Some url |}.
End Object.

Record Store := {
  Sources : gset Z;
  ObjectGroup : list Z;
  IngestProcess : list IngestProcessSchema.t;
  IngestProcessTags : list IngestProcessTag.t;
  Objects : list Object.t;
  next_object_group_id : Z;
  next_ingest_process_id : Z;
  now : Z
}.

(** ** The world, and the monad of the handlers *)

(** Calls issued to the object store. *)
Inductive store_call :=
| MinioInit (endpoint access_key secret_key : string)
| PresignedGetObject (bucket_name object_name : string).

(** [db] is what has been committed; [txn] is what the open session sees
    (committed data plus its own writes); [calls] is the trace of calls to
    the object store, oldest first. *)
Record World := {
  db : Store;
  txn : Store;
  calls : list store_call
}.

Definition M (A : Type) : Type := World → outcome A * World.

#[global] Instance M_ret : MRet M := λ A a w, (Return a, w).

#[global] Instance M_bind : MBind M := λ A B f m w,
  match m w with
  | (Return a, w') => f a w'
  | (Raise e, w') => (Raise e, w')
  end.

Definition raise {A : Type} (e : exn) : M A := λ w, (Raise e, w).

Definition lift {A : Type} (o : outcome A) : M A := λ w, (o, w).

(** [try: body except Exception as e: handler e] *)
Definition try_except {A : Type} (body : M A) (handler : exn → M A) : M A :=
  λ w, match body w with
       | (Return a, w') => (Return a, w')
       | (Raise e, w') => handler e w'
       end.

(** [for x in xs: body x], collecting the results; stops at the first
    exception. *)
Fixpoint for_each {A B : Type} (body : A → M B) (xs : list A) : M (list B) :=
  match xs with
  | [] => mret []
  | x :: xs' => y ← body x; ys ← for_each body xs'; mret (y :: ys)
  end.

(** [async with async_session() as session: body].  The session starts from
    the committed data; whatever it has not committed when the block is left,
    normally or by an exception, is discarded. *)
Definition async_session {A : Type} (body : M A) : M A := λ w,
  let '(r, w') := body {| db := db w; txn := db w; calls := calls w |} in
  (r, {| db := db w'; txn := db w'; calls := calls w' |}).

Definition session_commit : M unit := λ w,
  (Return (), {| db := txn w; txn := txn w; calls := calls w |}).

Definition session_query {A : Type} (q : Store → A) : M A := λ w,
  (Return (q (txn w)), w).

Definition session_execute {A : Type} (stmt : Store → outcome (A * Store))
  : M A := λ w,
  match stmt (txn w) with
  | Return (a, s) => (Return a, {| db := db w; txn := s; calls := calls w |})
  | Raise e => (Raise e, w)
  end.

Definition record_call (c : store_call) : M unit := λ w,
  (Return (), {| db := db w; txn := txn w; calls := calls w ++ [c] |}).

(** ** Statements *)

Definition with_ObjectGroup (s : Store) (og : list Z) (next : Z) : Store :=
  {| Sources := Sources s; ObjectGroup := og;
     IngestProcess := IngestProcess s;
     IngestProcessTags := IngestProcessTags s; Objects := Objects s;
     next_object_group_id := next;
     next_ingest_process_id := next_ingest_process_id s; now := now s |}.

Definition with_IngestProcess (s : Store) (tbl : list IngestProcessSchema.t)
    (next : Z) : Store :=
  {| Sources := Sources s; ObjectGroup := ObjectGroup s;
     IngestProcess := tbl;
     IngestProcessTags := IngestProcessTags s; Objects := Objects s;
     next_object_group_id := next_object_group_id s;
     next_ingest_process_id := next; now := now s |}.

Definition with_IngestProcessTags (s : Store) (tbl : list IngestProcessTag.t)
  : Store :=
  {| Sources := Sources s; ObjectGroup := ObjectGroup s;
     IngestProcess := IngestProcess s;
     IngestProcessTags := tbl; Objects := Objects s;
     next_object_group_id := next_object_group_id s;
     next_ingest_process_id := next_ingest_process_id s; now := now s |}.

(** [INSERT INTO object_group DEFAULT VALUES RETURNING id] *)
Definition insert_ObjectGroup (s : Store) : outcome (Z * Store) :=
  let i := next_object_group_id s in
  Return (i, with_ObjectGroup s (ObjectGroup s ++ [i]) (i + 1)).

(** The foreign key of [source_id]. *)
Definition source_fk_ok (s : Store) (r : IngestProcessSchema.t) : bool :=
  match IngestProcessSchema.source_id r with
  | Some x => bool_decide (x ∈ Sources s)
  | None => true
  end.

(** A transient [IngestProcessSchema] built from keyword arguments, an object
    group id and a list of tags;
    tag objects are kept as their strings. *)
Record transient := {
  t_kwargs : gmap string pyval;
  t_object_group_id : Z;
  t_tags : list string
}.

Definition IngestProcessSchema_new (kwargs : gmap string pyval)
    (object_group_id : Z) (tags : list string) : outcome transient :=
  if decide ("object_group_id" ∈ dom kwargs ∨ "tags" ∈ dom kwargs) then
    Raise (TypeError "got multiple values for keyword argument")
  else if decide (dom kwargs ⊆ list_to_set IngestProcessSchema.columns) then
    Return {| t_kwargs := kwargs; t_object_group_id := object_group_id;
              t_tags := tags |}
  else Raise (TypeError "invalid keyword argument for IngestProcess").

(** Flushing a transient process: the row gets the next id and the current
    time, the given columns override the defaults, and one tag row per tag
    is written after it. *)
Definition insert_IngestProcess (p : transient) (s : Store)
  : outcome (IngestProcessSchema.t * Store) :=
  let blank :=
    {| IngestProcessSchema.id := next_ingest_process_id s;
       IngestProcessSchema.state := None;
       IngestProcessSchema.comments := None;
       IngestProcessSchema.source_id := None;
       IngestProcessSchema.access_group_id := None;
       IngestProcessSchema.object_group_id := t_object_group_id p;
       IngestProcessSchema.created_on := now s;
       IngestProcessSchema.completed_on := None |} in
  match IngestProcessSchema.values (t_kwargs p) blank with
  | None => Raise (StatementError "value does not fit its column")
  | Some r =>
      if source_fk_ok s r then
        let tag_rows :=
          (λ t, {| IngestProcessTag.ingest_process_id := IngestProcessSchema.id r;
                   IngestProcessTag.tag := t |}) <$> t_tags p in
        Return (r, with_IngestProcessTags
                     (with_IngestProcess s (IngestProcess s ++ [r])
                        (next_ingest_process_id s + 1))
                     (IngestProcessTags s ++ tag_rows))
      else Raise (IntegrityError "violates foreign key constraint on source_id")
  end.

(** [select(IngestProcessSchema).where(IngestProcessSchema.id == id)], first
    row; also [session.get(IngestProcessSchema, id)]. *)
Definition select_IngestProcess (i : Z) (s : Store)
  : option IngestProcessSchema.t :=
  head (filter (λ r, IngestProcessSchema.id r = i) (IngestProcess s)).

(** [select(IngestProcessSchema).limit(page_size).offset(page_size * page)
      .where(...)], all rows.  The predicate built by the query parser is a
    parameter; rows come in table order; a negative limit or offset is
    refused by the database. *)
Definition select_page (page page_size : Z)
    (where_expressions : IngestProcessSchema.t → bool) (s : Store)
  : outcome (list IngestProcessSchema.t * Store) :=
  if decide (page_size < 0 ∨ page_size * page < 0) then
    Raise (StatementError "LIMIT and OFFSET must not be negative")
  else
    Return (take (Z.to_nat page_size)
              (drop (Z.to_nat (page_size * page))
                 (filter (λ r, where_expressions r = true) (IngestProcess s))),
            s).

(** The [tags] relationship of the process [i], loaded when it is read. *)
Definition select_tags (i : Z) (s : Store) : list IngestProcessTag.t :=
  filter (λ t, IngestProcessTag.ingest_process_id t = i) (IngestProcessTags s).

Definition insert_tag (i : Z) (tag : string) (s : Store)
  : outcome (unit * Store) :=
  Return ((), with_IngestProcessTags s
                (IngestProcessTags s ++
                   [{| IngestProcessTag.ingest_process_id := i;
                       IngestProcessTag.tag := tag |}])).

(** [delete(IngestProcessTag).where(and_(ingest_process_id == id, tag == tag))] *)
Definition delete_tags (i : Z) (tag : string) (s : Store)
  : outcome (unit * Store) :=
  Return ((), with_IngestProcessTags s
                (filter (λ t, ¬ (IngestProcessTag.ingest_process_id t = i
                                 ∧ IngestProcessTag.tag t = tag))
                        (IngestProcessTags s))).

(** [session.get(Sources, source_id)] *)
Definition select_Sources (v : pyval) (s : Store) : option Z :=
  match v with
  | PInt x => if decide (x ∈ Sources s) then Some x else None
  | _ => None
  end.

(** A loaded [ObjectGroup] with its [objects] relationship. *)
Record ObjectGroup_loaded := {
  og_id : Z;
  objects : list Object.t
}.

(** [select(ObjectGroup).where(ObjectGroup.id == id)
      .options(selectinload(ObjectGroup.objects))], first row. *)
Definition select_ObjectGroup (i : Z) (s : Store) : option ObjectGroup_loaded :=
  (λ g, {| og_id := g;
           objects := filter (λ o, Object.object_group_id o = g) (Objects s) |})
    <$> head (filter (λ g, g = i) (ObjectGroup s)).

(** [update(IngestProcessSchema).where(IngestProcessSchema.id == id)
      .values(d).returning(IngestProcessSchema)], first returned row.

    What the statement does when [d] is empty is decided by the SQL toolkit,
    not by the route: [empty_values] is the exception it raises in that case,
    if any.  Otherwise every row with the id gets the columns of [d]; the
    foreign key of [source_id] is checked when that column is assigned. *)
Definition update_IngestProcess (empty_values : option exn) (i : Z)
    (d : gmap string pyval) (s : Store)
  : outcome (option IngestProcessSchema.t * Store) :=
  match (if decide (dom d = ∅) then empty_values else None) with
  | Some e => Raise e
  | None =>
      let matched := filter (λ r, IngestProcessSchema.id r = i) (IngestProcess s) in
      match mapM (IngestProcessSchema.values d) matched with
      | None => Raise (StatementError "value does not fit its column")
      | Some updated =>
          if bool_decide ("source_id" ∈ dom d)
             && negb (forallb (source_fk_ok s) updated)
          then Raise (IntegrityError
                        "violates foreign key constraint on source_id")
          else
            Return (head updated,
                    with_IngestProcess s
                      ((λ r, if decide (IngestProcessSchema.id r = i)
                             then default r (IngestProcessSchema.values d r)
                             else r) <$> IngestProcess s)
                      (next_ingest_process_id s))
      end
  end.

(** The [Get] model validated from the attributes of a row. *)
Definition Get_of (r : IngestProcessSchema.t) : IngestProcessModel.Get :=
  {| IngestProcessModel.state := IngestProcessSchema.state r;
     IngestProcessModel.comments := IngestProcessSchema.comments r;
     IngestProcessModel.source_id := IngestProcessSchema.source_id r;
     IngestProcessModel.access_group_id := IngestProcessSchema.access_group_id r;
     IngestProcessModel.id := IngestProcessSchema.id r;
     IngestProcessModel.object_group_id := IngestProcessSchema.object_group_id r;
     IngestProcessModel.created_on := IngestProcessSchema.created_on r;
     IngestProcessModel.completed_on := IngestProcessSchema.completed_on r |}.

(** The process object returned by the create route: its columns, the tag
    list it was built with and the source attached before returning. *)
Record IngestProcessInstance := {
  columns : IngestProcessSchema.t;
  tags : list string;
  source : option Z
}.

Definition forbidden : exn :=
  HTTPException 403 "User does not have access to create an object".

Definition not_found (id : Z) : exn :=
  HTTPException 404 ("IngestProcess with id (" +:+ pretty id +:+ ") not found").

(** [xs[0]] *)
Definition first {A : Type} (xs : list A) : outcome A :=
  match xs with
  | x :: _ => Return x
  | [] => Raise (IndexError "list index out of range")
  end.

(** ** The routes ([api/routes/ingest.py]) *)

Section Routes.

(** The collaborators outside the repository: the behaviour of the SQL
    toolkit on an empty value set, the process environment, and the
    object-store client. *)
Context (empty_values : option exn).
Context (environ : gmap string string).
Context {MinioClient : Type}.
Context (Minio : string → string → string → outcome MinioClient).
Context (presigned_get_object : MinioClient → string → string → outcome string).

(** [os.environ[k]] *)
Definition environ_get (k : string) : outcome string :=
  match environ !! k with
  | Some v => Return v
  | None => Raise (KeyError k)
  end.

Definition new_Minio (endpoint access_key secret_key : string)
  : M MinioClient :=
  _ ← record_call (MinioInit endpoint access_key secret_key);
  lift (Minio endpoint access_key secret_key).

Definition call_presigned_get_object (m : MinioClient)
    (bucket_name object_name : string) : M string :=
  _ ← record_call (PresignedGetObject bucket_name object_name);
  lift (presigned_get_object m bucket_name object_name).

Definition get_multiple_ingest_process (page page_size : Z)
    (where_expressions : IngestProcessSchema.t → bool)
  : M (list IngestProcessSchema.t) :=
  async_session (
    results ← session_execute (select_page page page_size where_expressions);
    mret results).

Definition get_ingest_process (id : Z) : M IngestProcessSchema.t :=
  async_session (
    result ← session_query (select_IngestProcess id);
    match result with
    | None => raise (not_found id)
    | Some r => mret r
    end).

(** Objects are flushed when they are added to the session: no handler
    looks at the session between [session.add] and the commit that
    follows it. *)
Definition create_ingest_process (object : IngestProcessModel.BaseModel)
    (user_has_access : bool) : M IngestProcessInstance :=
  if negb user_has_access then raise forbidden
  else
    async_session (
      object_group_id ← session_execute insert_ObjectGroup;
      _ ← session_commit;
      object_tags ← lift (IngestProcessModel.getattr object "tags");
      tags ← lift (iter_strings object_tags);
      object ← lift (IngestProcessModel.delattr object "tags");
      ingest_process ←
        lift (IngestProcessSchema_new (IngestProcessModel.model_dump object)
                object_group_id tags);
      row ← session_execute (insert_IngestProcess ingest_process);
      _ ← session_commit;
      source_id ← lift (IngestProcessModel.getattr object "source_id");
      source ← session_query (select_Sources source_id);
      mret {| columns := row; tags := tags; source := source |}).

Definition patch_ingest_process (id : Z)
    (object : IngestProcessModel.BaseModel) (user_has_access : bool)
  : M IngestProcessModel.Get :=
  if negb user_has_access then raise forbidden
  else
    async_session (
      server_object ←
        session_execute
          (update_IngestProcess empty_values id
             (IngestProcessModel.model_dump_exclude_unset object));
      attrs ← lift (getattr_opt server_object "__dict__" (λ r, r));
      let response := Get_of attrs in
      _ ← session_commit;
      mret response).

Definition add_ingest_process_tag (id : Z) (tag : IngestProcessModel.Tag)
    (user_has_access : bool) : M (list string) :=
  if negb user_has_access then raise forbidden
  else
    async_session (
      ingest_process ← session_query (select_IngestProcess id);
      match ingest_process with
      | None => raise (not_found id)
      | Some p =>
          _ ← session_execute
                (insert_tag (IngestProcessSchema.id p)
                   (IngestProcessModel.tag tag));
          _ ← session_commit;
          ingest_process ← session_query (select_IngestProcess id);
          p' ← lift (getattr_opt ingest_process "tags" IngestProcessSchema.id);
          tags ← session_query (select_tags p');
          mret (IngestProcessTag.tag <$> tags)
      end).

Definition delete_ingest_process_tag (id : Z) (tag : string)
    (user_has_access : bool) : M (list string) :=
  if negb user_has_access then raise forbidden
  else
    async_session (
      ingest_process ← session_query (select_IngestProcess id);
      match ingest_process with
      | None => raise (not_found id)
      | Some _ =>
          _ ← session_execute (delete_tags id tag);
          _ ← session_commit;
          ingest_process ← session_query (select_IngestProcess id);
          p' ← lift (getattr_opt ingest_process "tags" IngestProcessSchema.id);
          tags ← session_query (select_tags p');
          mret (IngestProcessTag.tag <$> tags)
      end).

(** The body of the loop over the loaded objects:
    [obj.pre_signed_url = m.presigned_get_object(obj.bucket, obj.key)] *)
Definition attach_pre_signed_url (m : MinioClient) (obj : Object.t)
  : M Object.t :=
  url ← call_presigned_get_object m (Object.bucket obj) (Object.key obj);
  mret (Object.with_url obj url).

Definition get_ingest_process_objects (id : Z) : M (list Object.t) :=
  schema_objects ←
    async_session (
      ingest_process ← session_query (select_IngestProcess id);
      object_group_id ←
        lift (getattr_opt ingest_process "object_group_id"
                IngestProcessSchema.object_group_id);
      group ← session_query (select_ObjectGroup object_group_id);
      lift (getattr_opt group "objects" objects));
  if decide (length schema_objects = 0%nat) then mret []
  else
    try_except (
      first_object ← lift (first schema_objects);
      access_key ← lift (environ_get "access_key");
      secret_key ← lift (environ_get "secret_key");
      m ← new_Minio (Object.host first_object) access_key secret_key;
      for_each (attach_pre_signed_url m) schema_objects)
      (λ e, raise (HTTPException 500
                     ("Failed to get secure url for object: " +:+ exn_str e))).

End Routes.

(** ** Derived views and sample data *)

(** The tag strings of a process, as the tag routes return them. *)
Definition tag_list (i : Z) (s : Store) : list string :=
  IngestProcessTag.tag <$> select_tags i s.

Definition tag_row (i : Z) (t : string) : IngestProcessTag.t :=
  {| IngestProcessTag.ingest_process_id := i; IngestProcessTag.tag := t |}.

(** What the update statement makes of one row. *)
Definition patched (i : Z) (d : gmap string pyval) (r : IngestProcessSchema.t)
  : IngestProcessSchema.t :=
  if decide (IngestProcessSchema.id r = i)
  then default r (IngestProcessSchema.values d r) else r.

(** The database once the object group of a create call is committed. *)
Definition with_new_ObjectGroup (s : Store) : Store :=
  with_ObjectGroup s (ObjectGroup s ++ [next_object_group_id s])%list
    (next_object_group_id s + 1).

(** The request for the URL of one object, and a world with further calls
    to the object store. *)
Definition presign_call (obj : Object.t) : store_call :=
  PresignedGetObject (Object.bucket obj) (Object.key obj).

Definition add_calls (w : World) (cs : list store_call) : World :=
  {| db := db w; txn := txn w; calls := (calls w ++ cs)%list |}.

Definition world_of (s : Store) : World := {| db := s; txn := s; calls := [] |}.

(** An empty database that knows the source 7. *)
Definition store0 : Store :=
  {| Sources := {[7]}; ObjectGroup := []; IngestProcess := [];
     IngestProcessTags := []; Objects := [];
     next_object_group_id := 1; next_ingest_process_id := 1; now := 100 |}.

Definition process1 : IngestProcessSchema.t :=
  {| IngestProcessSchema.id := 1;
     IngestProcessSchema.state := Some "PENDING";
     IngestProcessSchema.comments := None;
     IngestProcessSchema.source_id := Some 7;
     IngestProcessSchema.access_group_id := None;
     IngestProcessSchema.object_group_id := 1;
     IngestProcessSchema.created_on := 100;
     IngestProcessSchema.completed_on := None |}.

Definition object1 (k : string) : Object.t :=
  {| Object.object_group_id := 1; Object.host := "store.example";
     Object.bucket := "maps"; Object.key := k;
     Object.pre_signed_url := None |}.

(** One process, tagged ["alpha"], whose object group holds [objs]. *)
Definition store1 (objs : list Object.t) : Store :=
  {| Sources := {[7]}; ObjectGroup := [1]; IngestProcess := [process1];
     IngestProcessTags := [tag_row 1 "alpha"]; Objects := objs;
     next_object_group_id := 2; next_ingest_process_id := 2; now := 100 |}.



Definition sample_IngestState : list string := ["PENDING"; "COMPLETE"].

(** A conversion that knows the string ["7"] only. *)
Definition sample_str_as_int (s : string) : option Z :=
  if decide (s = "7") then Some 7 else None.


(** The request body of the creation scenario. *)
Definition scenario_body : gmap string pyval :=
  <["tags" := PList [PStr "batch-1"]]>
    (<["state" := PStr "PENDING"]> {["source_id" := PInt 7]}).

Definition sample_environ : gmap string string :=
  <["access_key" := "AK"]> {["secret_key" := "SK"]}.

(** An object-store client that signs every key except ["broken"]. *)
Definition sample_Minio (endpoint access_key secret_key : string)
  : outcome string := Return endpoint.

(** A signer that refuses the key ["broken"] on the client of
    ["store.example"] only. *)
Definition sample_presign_host (m bucket_name object_name : string)
  : outcome string :=
  if decide (m = "store.example" ∧ object_name = "broken")
  then Raise (OtherError "connection refused")
  else Return ("https://" +:+ m +:+ "/" +:+ bucket_name +:+ "/" +:+ object_name).

Definition sample_presign (m bucket_name object_name : string)
  : outcome string :=
  if decide (object_name = "broken") then Raise (OtherError "connection refused")
  else Return ("https://" +:+ m +:+ "/" +:+ bucket_name +:+ "/" +:+ object_name).

(** * Properties *)

Ltac run :=
  unfold mbind, M_bind, mret, M_ret, session_execute, session_query,
         session_commit, lift, raise; cbn.

Ltac run' :=
  unfold mbind, M_bind, mret, M_ret, session_execute, session_query,
         session_commit, lift, raise; cbn -[for_each].

(** ** Columns read and written by name *)

Lemma set_Some c v r r' :
  IngestProcessSchema.set c v r = Some r' → c ∈ IngestProcessSchema.columns.
Proof.
  unfold IngestProcessSchema.set, IngestProcessSchema.columns.
  intros H. rewrite !elem_of_cons.
  repeat (case_decide; [tauto|]). done.
Qed.

Lemma set_get_same c v r r' :
  IngestProcessSchema.set c v r = Some r' → IngestProcessSchema.get r' c = Some v.
Proof.
  intros H. pose proof (set_Some _ _ _ _ H) as Hc.
  unfold IngestProcessSchema.columns in Hc.
  rewrite !elem_of_cons, elem_of_nil in Hc.
  destruct Hc as [->|[->|[->|[->|[->|[->|[->|[->|[]]]]]]]]];
    cbv [IngestProcessSchema.set] in H; cbn in H;
    destruct v; cbn in H; try discriminate; injection H as <-; reflexivity.
Qed.

Lemma set_get_other c c' v r r' :
  IngestProcessSchema.set c v r = Some r' → c' ≠ c →
  IngestProcessSchema.get r' c' = IngestProcessSchema.get r c'.
Proof.
  intros H Hne. pose proof (set_Some _ _ _ _ H) as Hc.
  unfold IngestProcessSchema.columns in Hc.
  rewrite !elem_of_cons, elem_of_nil in Hc.
  destruct Hc as [->|[->|[->|[->|[->|[->|[->|[->|[]]]]]]]]];
    cbv [IngestProcessSchema.set] in H; cbn in H;
    destruct v; cbn in H; try discriminate; injection H as <-;
    unfold IngestProcessSchema.get; cbn;
    repeat (case_decide; [first [congruence | reflexivity]|]); reflexivity.
Qed.

Lemma assign_get_other cols d r r' k :
  IngestProcessSchema.assign cols d r = Some r' →
  d !! k = None ∨ k ∉ cols →
  IngestProcessSchema.get r' k = IngestProcessSchema.get r k.
Proof.
  revert r'. induction cols as [|c cols IH]; intros r' H Hk; simpl in H.
  - by simplify_eq.
  - destruct (IngestProcessSchema.assign cols d r) as [r1|] eqn:E; simplify_eq/=.
    assert (IngestProcessSchema.get r1 k = IngestProcessSchema.get r k) as <-.
    { apply IH; [done|]. destruct Hk as [?|Hk]; [by left|right].
      intros ?. apply Hk. by right. }
    destruct (d !! c) as [v|] eqn:Ec; simplify_eq/=; [|done].
    eapply set_get_other; [done|].
    intros ->. destruct Hk as [?|Hk]; [congruence|]. apply Hk. by left.
Qed.

Lemma assign_get_same cols d r r' k v :
  IngestProcessSchema.assign cols d r = Some r' →
  k ∈ cols → d !! k = Some v →
  IngestProcessSchema.get r' k = Some v.
Proof.
  revert r'. induction cols as [|c cols IH]; intros r' H Hk Hv; simpl in H.
  - by apply elem_of_nil in Hk.
  - destruct (IngestProcessSchema.assign cols d r) as [r1|] eqn:E; simplify_eq/=.
    destruct (decide (k = c)) as [->|Hne].
    + rewrite Hv in H. by eapply set_get_same.
    + apply elem_of_cons in Hk as [?|Hk]; [done|].
      specialize (IH r1 eq_refl Hk Hv).
      destruct (d !! c) as [v'|]; simplify_eq/=; [|done].
      erewrite set_get_other; eauto.
Qed.

(** Columns absent from the value set keep their value. *)
Lemma values_frame d r r' k :
  IngestProcessSchema.values d r = Some r' → d !! k = None →
  IngestProcessSchema.get r' k = IngestProcessSchema.get r k.
Proof.
  unfold IngestProcessSchema.values. intros H Hk.
  case_decide; [|done]. eapply assign_get_other; eauto.
Qed.

(** Columns of the value set take the value given. *)
Lemma values_assigned d r r' k v :
  IngestProcessSchema.values d r = Some r' → d !! k = Some v →
  IngestProcessSchema.get r' k = Some v.
Proof.
  unfold IngestProcessSchema.values. intros H Hk.
  case_decide as Hdom; [|done].
  eapply assign_get_same; eauto.
  assert (k ∈ dom d) as Hin by (apply elem_of_dom; eauto).
  apply Hdom in Hin. by apply elem_of_list_to_set in Hin.
Qed.

Lemma get_id r r' :
  IngestProcessSchema.get r' "id" = IngestProcessSchema.get r "id" →
  IngestProcessSchema.id r' = IngestProcessSchema.id r.
Proof. unfold IngestProcessSchema.get. simpl. congruence. Qed.

Lemma get_source_id r x :
  IngestProcessSchema.get r "source_id" = Some (PInt x) →
  IngestProcessSchema.source_id r = Some x.
Proof.
  unfold IngestProcessSchema.get. simpl.
  destruct (IngestProcessSchema.source_id r); simpl; congruence.
Qed.

Lemma values_keeps_id d r r' :
  d !! "id" = None → IngestProcessSchema.values d r = Some r' →
  IngestProcessSchema.id r' = IngestProcessSchema.id r.
Proof. intros Hd H. apply get_id. by eapply values_frame. Qed.

Lemma patched_keeps_id i d r :
  d !! "id" = None →
  IngestProcessSchema.id (patched i d r) = IngestProcessSchema.id r.
Proof.
  intros Hd. unfold patched. case_decide; [|done].
  destruct (IngestProcessSchema.values d r) as [r'|] eqn:E; [|done].
  by eapply values_keeps_id.
Qed.

(** ** Model instances *)

Lemma model_construct_lookup cls names kwargs c :
  IngestProcessModel.fields (IngestProcessModel.model_construct cls names kwargs) !! c
  = if decide (c ∈ names) then Some (default PNone (kwargs !! c)) else None.
Proof.
  cbn [IngestProcessModel.fields IngestProcessModel.model_construct].
  induction names as [|n names IH].
  - rewrite fmap_nil, list_to_map_nil, lookup_empty.
    rewrite decide_False; [done|]. apply not_elem_of_nil.
  - rewrite fmap_cons, list_to_map_cons.
    destruct (decide (c = n)) as [->|Hne].
    + rewrite lookup_insert_eq. rewrite decide_True; [done|by left].
    + rewrite lookup_insert_ne by done. rewrite IH.
      destruct (decide (c ∈ names)) as [Hin|Hni].
      * rewrite decide_True; [done|by right].
      * rewrite decide_False; [done|]. intros [?|?]%elem_of_cons; done.
Qed.

(** A [Post] (or [Patch]) instance never carries a [tags] attribute. *)
Lemma Post_has_no_tags kwargs :
  IngestProcessModel.getattr (IngestProcessModel.Post kwargs) "tags"
  = Raise (AttributeError "'Post' object has no attribute 'tags'").
Proof.
  unfold IngestProcessModel.getattr, IngestProcessModel.Post.
  rewrite model_construct_lookup. reflexivity.
Qed.

(** The sparse dump of an instance holds exactly the declared fields that
    were given. *)
Lemma dump_exclude_unset_lookup cls names kwargs c :
  IngestProcessModel.model_dump_exclude_unset
    (IngestProcessModel.model_construct cls names kwargs) !! c
  = if decide (c ∈ names) then kwargs !! c else None.
Proof.
  unfold IngestProcessModel.model_dump_exclude_unset.
  destruct (kwargs !! c) as [v|] eqn:E.
  - case_decide as Hin.
    + apply map_lookup_filter_Some. split.
      * rewrite model_construct_lookup, decide_True by done. by rewrite E.
      * simpl. apply elem_of_intersection. split; [apply elem_of_dom; eauto|].
        by apply elem_of_list_to_set.
    + apply map_lookup_filter_None. left. by rewrite model_construct_lookup, decide_False.
  - assert (filter (λ kv : string * pyval, kv.1 ∈ IngestProcessModel.fields_set (IngestProcessModel.model_construct cls names kwargs))
      (IngestProcessModel.fields (IngestProcessModel.model_construct cls names kwargs)) !! c = None) as ->.
    { apply map_lookup_filter_None. right. intros v _. simpl.
      intros [Hd _]%elem_of_intersection. apply elem_of_dom in Hd as [? ?]. congruence. }
    by case_decide.
Qed.

(** ** The update statement and the patch route *)

Lemma select_IngestProcess_id i s r :
  select_IngestProcess i s = Some r → IngestProcessSchema.id r = i.
Proof.
  unfold select_IngestProcess. intros H.
  apply head_Some_elem_of in H. by apply list_elem_of_filter in H as [? _].
Qed.

Lemma filter_id_fmap (f : IngestProcessSchema.t → IngestProcessSchema.t) i
    (tbl : list IngestProcessSchema.t) :
  (∀ r, IngestProcessSchema.id (f r) = IngestProcessSchema.id r) →
  filter (λ r, IngestProcessSchema.id r = i) (f <$> tbl)
  = f <$> filter (λ r, IngestProcessSchema.id r = i) tbl.
Proof.
  intros Hf. induction tbl as [|r tbl IH]; [done|].
  rewrite fmap_cons, !filter_cons, Hf.
  case_decide; [rewrite fmap_cons|]; by rewrite IH.
Qed.

(** What a successful update statement has done. *)
Lemma update_IngestProcess_Return ev i d s o s' :
  update_IngestProcess ev i d s = Return (o, s') →
  s' = with_IngestProcess s (patched i d <$> IngestProcess s)
         (next_ingest_process_id s)
  ∧ ∃ updated,
      mapM (IngestProcessSchema.values d)
        (filter (λ r, IngestProcessSchema.id r = i) (IngestProcess s))
      = Some updated
      ∧ o = head updated.
Proof.
  unfold update_IngestProcess. intros H.
  destruct (if decide (dom d = ∅) then ev else None); [done|].
  destruct (mapM _ _) as [updated|] eqn:E; [|done].
  destruct (_ && _); [done|]. simplify_eq. eauto.
Qed.

(** With no row of that id, a statement that runs returns no row. *)
Lemma update_IngestProcess_no_row ev i d s :
  select_IngestProcess i s = None → dom d ≠ ∅ →
  ∃ s', update_IngestProcess ev i d s = Return (None, s')
        ∧ IngestProcess s' = IngestProcess s.
Proof.
  unfold select_IngestProcess, update_IngestProcess. intros H Hd.
  apply head_None in H. rewrite decide_False by done. rewrite H. simpl.
  rewrite andb_false_r. eexists; split; [done|]. simpl.
  induction (IngestProcess s) as [|r tbl IH]; [done|].
  rewrite filter_cons in H. case_decide as Hr; [done|].
  rewrite fmap_cons. rewrite decide_False by done. by rewrite IH.
Qed.

(** The patch route, by the outcome of its update statement. *)
Lemma patch_ingest_process_run ev id object w :
  patch_ingest_process ev id object true w
  = match update_IngestProcess ev id
            (IngestProcessModel.model_dump_exclude_unset object) (db w) with
    | Return (Some r, s') =>
        (Return (Get_of r), {| db := s'; txn := s'; calls := calls w |})
    | Return (None, _) =>
        (Raise (AttributeError "'NoneType' object has no attribute '__dict__'"),
         {| db := db w; txn := db w; calls := calls w |})
    | Raise e => (Raise e, {| db := db w; txn := db w; calls := calls w |})
    end.
Proof.
  unfold patch_ingest_process, async_session.
  generalize (IngestProcessModel.model_dump_exclude_unset object). intros d.
  run. destruct (update_IngestProcess ev id d (db w)) as [[[r|] s']|e]; done.
Qed.

Lemma patch_missing_id ev id object w :
  select_IngestProcess id (db w) = None →
  dom (IngestProcessModel.model_dump_exclude_unset object) ≠ ∅ →
  (patch_ingest_process ev id object true w).1
  = Raise (AttributeError "'NoneType' object has no attribute '__dict__'")
  ∧ db (patch_ingest_process ev id object true w).2 = db w.
Proof.
  intros H Hd. rewrite patch_ingest_process_run.
  destruct (update_IngestProcess_no_row ev id _ _ H Hd) as (s' & -> & _).
  done.
Qed.

(** C6: a patch of an existing process changes only the fields given in the
    request: a column that is not among the fields set keeps its value; when
    the route returns, the response is the updated row and every field set
    holds the value given; tag rows and the rows of other processes are left
    as they were.  The access gate has granted the call. *)
Theorem patch_is_sparse ev kwargs id w r :
  select_IngestProcess id (db w) = Some r →
  let object := IngestProcessModel.Patch kwargs in
  let res := patch_ingest_process ev id object true w in
  ∃ r',
    select_IngestProcess id (db res.2) = Some r'
    ∧ (∀ c, c ∉ IngestProcessModel.fields_set object →
            IngestProcessSchema.get r' c = IngestProcessSchema.get r c)
    ∧ (∀ response, res.1 = Return response →
         response = Get_of r'
         ∧ ∀ c, c ∈ IngestProcessModel.fields_set object →
                kwargs !! c = IngestProcessSchema.get r' c)
    ∧ IngestProcessTags (db res.2) = IngestProcessTags (db w)
    ∧ Forall2 (λ a b, IngestProcessSchema.id a ≠ id → b = a)
        (IngestProcess (db w)) (IngestProcess (db res.2)).
Proof.
  intros Hr object res.
  assert (Hd : ∀ c, IngestProcessModel.model_dump_exclude_unset object !! c
                    = if decide (c ∈ IngestProcessModel.Post_fields)
                      then kwargs !! c else None)
    by (intros c; apply dump_exclude_unset_lookup).
  assert (Hfs : ∀ c, c ∈ IngestProcessModel.fields_set object
                     ↔ is_Some (kwargs !! c) ∧ c ∈ IngestProcessModel.Post_fields).
  { intros c. unfold object, IngestProcessModel.Patch, IngestProcessModel.model_construct.
    cbn [IngestProcessModel.fields_set].
    rewrite elem_of_intersection, elem_of_dom, elem_of_list_to_set. done. }
  subst res. rewrite patch_ingest_process_run.
  revert Hd. generalize (IngestProcessModel.model_dump_exclude_unset object).
  revert Hfs. generalize (IngestProcessModel.fields_set object).
  clear object. intros fs Hfs d Hd.
  assert (Hunset : ∀ c, c ∉ fs → d !! c = None).
  { intros c Hc. rewrite Hd. case_decide as Hin; [|done].
    destruct (kwargs !! c) eqn:E; [|done]. exfalso. apply Hc.
    apply Hfs. rewrite E. eauto. }
  assert (Hid : d !! "id" = None).
  { rewrite Hd. rewrite decide_False; [done|].
    unfold IngestProcessModel.Post_fields. rewrite !elem_of_cons, elem_of_nil.
    intros [?|[?|[?|[?|?]]]]; done. }
  destruct (update_IngestProcess ev id d (db w)) as [[o s']|e] eqn:E.
  - apply update_IngestProcess_Return in E as (-> & updated & Hm & ->).
    unfold select_IngestProcess in Hr.
    destruct (filter _ (IngestProcess (db w))) as [|r0 rest] eqn:Ef;
      [done|]. cbn in Hr. injection Hr as ->. cbn in Hm.
    destruct (IngestProcessSchema.values d r) as [r1|] eqn:Ev; [|done].
    cbn in Hm. destruct (mapM _ rest) as [rest'|]; [|done].
    cbn in Hm. injection Hm as <-. cbn.
    exists r1. split; [|split; [|split; [|split]]].
    + unfold select_IngestProcess. simpl.
      rewrite filter_id_fmap by (intros; by apply patched_keeps_id).
      rewrite Ef. simpl. unfold patched.
      assert (IngestProcessSchema.id r = id) as Hi.
      { assert (r ∈ filter (λ r, IngestProcessSchema.id r = id)
                      (IngestProcess (db w))) as Hin by (rewrite Ef; left).
        by apply list_elem_of_filter in Hin as [? _]. }
      rewrite decide_True by done. by rewrite Ev.
    + intros c Hc. eapply values_frame; eauto.
    + intros response [= <-]. split; [done|].
      intros c Hc. apply Hfs in Hc as [[v Hv] Hc].
      rewrite Hv. symmetry. eapply values_assigned; eauto.
      rewrite Hd, decide_True by done. done.
    + done.
    + apply Forall2_fmap_r, Forall_Forall2_diag, Forall_forall.
      intros a _ Ha. unfold patched. by rewrite decide_False.
  - exists r. simpl. split; [done|]. split; [done|]. split; [done|]. split; [done|].
    apply Forall_Forall2_diag, Forall_forall. done.
Qed.

Lemma patch_is_sparse_witness :
  ∃ r', select_IngestProcess 1
          (db (patch_ingest_process None 1
                 (IngestProcessModel.Patch {["comments" := PStr "x"]}) true
                 (world_of (store1 []))).2) = Some r'
        ∧ IngestProcessSchema.get r' "state" = Some (PStr "PENDING")
        ∧ IngestProcessSchema.get r' "source_id" = Some (PInt 7).
Proof.
  destruct (patch_is_sparse None {["comments" := PStr "x"]} 1
              (world_of (store1 [])) process1 eq_refl)
    as (r' & Hsel & Hframe & _).
  exists r'. split; [exact Hsel|].
  split; (rewrite Hframe; [reflexivity|]);
    apply (bool_decide_unpack _); vm_compute; exact I.
Defined.

(** C2: patching an id that matches no row ends in an [AttributeError] on
    the missing result, not in a 404: here on the empty database with the
    body [{"comments": "x"}]. *)
Theorem patch_missing_id_attribute_error ev :
  (patch_ingest_process ev 999
     (IngestProcessModel.Patch {["comments" := PStr "x"]}) true
     (world_of store0)).1
  = Raise (AttributeError "'NoneType' object has no attribute '__dict__'").
Proof.
  apply patch_missing_id; [reflexivity|].
  intros H. apply (f_equal (λ X, bool_decide ("comments" ∈ X))) in H.
  vm_compute in H. discriminate.
Qed.

(** ** The tag routes *)

Lemma delete_ingest_process_tag_run id t w p :
  select_IngestProcess id (db w) = Some p →
  let s' := with_IngestProcessTags (db w)
              (filter (λ row, ¬ (IngestProcessTag.ingest_process_id row = id
        ∧ IngestProcessTag.tag row = t)) (IngestProcessTags (db w))) in
  delete_ingest_process_tag id t true w
  = (Return (tag_list id s'), {| db := s'; txn := s'; calls := calls w |}).
Proof.
  intros Hp s'. unfold delete_ingest_process_tag, async_session. run.
  rewrite Hp. run. unfold select_IngestProcess in *. cbn. rewrite Hp. cbn.
  apply select_IngestProcess_id in Hp as ->. done.
Qed.

Lemma add_ingest_process_tag_run id t w p :
  select_IngestProcess id (db w) = Some p →
  let s' := with_IngestProcessTags (db w)
              (IngestProcessTags (db w) ++ [tag_row id (IngestProcessModel.tag t)]) in
  add_ingest_process_tag id t true w
  = (Return (tag_list id s'), {| db := s'; txn := s'; calls := calls w |}).
Proof.
  intros Hp s'. unfold add_ingest_process_tag, async_session. run.
  rewrite Hp. run. unfold select_IngestProcess in *. cbn. rewrite Hp. cbn.
  apply select_IngestProcess_id in Hp as ->. done.
Qed.

Lemma tag_list_delete i t (tbl : list IngestProcessTag.t) :
  IngestProcessTag.tag <$>
    filter (λ row, IngestProcessTag.ingest_process_id row = i)
      (filter (λ row, ¬ (IngestProcessTag.ingest_process_id row = i
        ∧ IngestProcessTag.tag row = t)) tbl)
  = filter (λ x, x ≠ t)
      (IngestProcessTag.tag <$>
         filter (λ row, IngestProcessTag.ingest_process_id row = i) tbl).
Proof.
  induction tbl as [|row tbl IH]; [done|].
  rewrite !filter_cons. 
  destruct (decide (IngestProcessTag.ingest_process_id row = i)) as [Hi|Hi].
  - destruct (decide (IngestProcessTag.tag row = t)) as [Ht|Ht].
    + rewrite decide_False by (cbn; intuition congruence). rewrite fmap_cons, filter_cons.
      rewrite decide_False by (cbn; intuition congruence). done.
    + rewrite decide_True by (cbn; intuition congruence). rewrite filter_cons, decide_True by done.
      rewrite !fmap_cons, filter_cons, decide_True by done. by rewrite IH.
  - rewrite decide_True by (cbn; intuition congruence). rewrite filter_cons, decide_False by done. done.
Qed.

Lemma filter_absent_tag i t (tbl : list IngestProcessTag.t) :
  t ∉ IngestProcessTag.tag <$>
        filter (λ row, IngestProcessTag.ingest_process_id row = i) tbl →
  filter (λ row, ¬ (IngestProcessTag.ingest_process_id row = i
        ∧ IngestProcessTag.tag row = t)) tbl = tbl.
Proof.
  induction tbl as [|row tbl IH]; [done|]. intros Hn.
  rewrite filter_cons in Hn. rewrite filter_cons. 
  destruct (decide (IngestProcessTag.ingest_process_id row = i)) as [Hi|Hi].
  - rewrite fmap_cons in Hn. apply not_elem_of_cons in Hn as [Hne Hn].
    rewrite decide_True by (cbn; intuition congruence). by rewrite IH.
  - rewrite decide_True by (cbn; intuition congruence). by rewrite IH.
Qed.

(** C8: delete-tag on an existing process removes every tag row whose
    (process id, tag) pair matches, duplicates included, and returns the
    remaining tags of the process; when the tag is not among the tags of the
    process it succeeds, returns the tag list unchanged and leaves the tag
    table as it was.  The access gate has granted the call. *)
Theorem delete_tag_by_value id t w p :
  select_IngestProcess id (db w) = Some p →
  let res := delete_ingest_process_tag id t true w in
  res.1 = Return (filter (λ x, x ≠ t) (tag_list id (db w)))
  ∧ IngestProcessTags (db res.2)
    = filter (λ row, ¬ (IngestProcessTag.ingest_process_id row = id
        ∧ IngestProcessTag.tag row = t)) (IngestProcessTags (db w))
  ∧ IngestProcess (db res.2) = IngestProcess (db w)
  ∧ (t ∉ tag_list id (db w) →
       res.1 = Return (tag_list id (db w))
       ∧ IngestProcessTags (db res.2) = IngestProcessTags (db w)).
Proof.
  intros Hp res. subst res. rewrite (delete_ingest_process_tag_run _ _ _ _ Hp).
  cbn. unfold tag_list, select_tags. cbn. rewrite tag_list_delete.
  split; [done|]. split; [done|]. split; [done|].
  intros Hn. rewrite (filter_absent_tag _ _ _ Hn). split; [|done].
  f_equal. clear -Hn. induction (_ <$> _) as [|x l IH]; [done|].
  apply not_elem_of_cons in Hn as [? ?]. rewrite filter_cons, decide_True by done.
  by rewrite IH.
Qed.

Lemma delete_tag_by_value_witness :
  (delete_ingest_process_tag 1 "beta" true (world_of (store1 []))).1
  = Return ["alpha"].
Proof.
  destruct (delete_tag_by_value 1 "beta" (world_of (store1 [])) process1 eq_refl)
    as (_ & _ & _ & H).
  apply H. apply (bool_decide_unpack _). vm_compute. exact I.
Defined.

(** Add-tag then delete-tag of the same string returns the tags the process
    had before, less every earlier occurrence of that string. *)
Lemma add_then_delete_general id t w p :
  select_IngestProcess id (db w) = Some p →
  let w1 := (add_ingest_process_tag id t true w).2 in
  let res := delete_ingest_process_tag id (IngestProcessModel.tag t) true w1 in
  res.1 = Return (filter (λ x, x ≠ IngestProcessModel.tag t) (tag_list id (db w))).
Proof.
  intros Hp w1 res. subst res w1.
  rewrite (add_ingest_process_tag_run _ _ _ _ Hp). cbn [snd].
  erewrite delete_ingest_process_tag_run by exact Hp. cbn.
  unfold tag_list, select_tags. cbn.
  rewrite filter_app, filter_cons, filter_nil.
  cbn. rewrite decide_False by (cbn; intuition congruence).
  rewrite app_nil_r, tag_list_delete. done.
Qed.

(** C9, as amended: for an existing process and a tag string that is not
    yet among its tags, add-tag followed by delete-tag of that string returns
    the tag list the process had before either call, and the tag table is
    back to what it was.  The access gate has granted both calls. *)
Theorem add_then_delete_fresh_tag id t w p :
  select_IngestProcess id (db w) = Some p →
  IngestProcessModel.tag t ∉ tag_list id (db w) →
  let w1 := (add_ingest_process_tag id t true w).2 in
  let res := delete_ingest_process_tag id (IngestProcessModel.tag t) true w1 in
  res.1 = Return (tag_list id (db w))
  ∧ IngestProcessTags (db res.2) = IngestProcessTags (db w).
Proof.
  intros Hp Hn w1 res. subst res w1.
  rewrite (add_ingest_process_tag_run _ _ _ _ Hp). cbn [snd].
  erewrite delete_ingest_process_tag_run by exact Hp. cbn.
  rewrite filter_app, filter_cons, filter_nil.
  cbn. rewrite decide_False by (cbn; intuition congruence).
  rewrite !app_nil_r, !(filter_absent_tag _ _ _ Hn). split; reflexivity.
Qed.

Lemma add_then_delete_fresh_tag_witness :
  let w := world_of (store1 []) in
  let t := {| IngestProcessModel.tag := "beta" |} in
  (delete_ingest_process_tag 1 "beta" true
     (add_ingest_process_tag 1 t true w).2).1
  = Return ["alpha"].
Proof.
  intros w t.
  apply (add_then_delete_fresh_tag 1 t w process1 eq_refl).
  apply (bool_decide_unpack _). vm_compute. exact I.
Defined.

(** C9, as stated, fails when the process already carries the tag: the
    process tagged ["alpha"] ends with no tag at all. *)
Lemma add_then_delete_present_tag :
  let w := world_of (store1 []) in
  let t := {| IngestProcessModel.tag := "alpha" |} in
  tag_list 1 (db w) = ["alpha"]
  ∧ (delete_ingest_process_tag 1 "alpha" true
       (add_ingest_process_tag 1 t true w).2).1
    ≠ Return (tag_list 1 (db w)).
Proof.
  split; [reflexivity|]. vm_compute. discriminate.
Qed.

(** ** The objects listing *)

Section Objects.
Context (environ : gmap string string).
Context {MinioClient : Type}.
Context (Minio : string → string → string → outcome MinioClient).
Context (presigned_get_object : MinioClient → string → string → outcome string).

Lemma attach_pre_signed_url_run m obj w :
  attach_pre_signed_url presigned_get_object m obj w
  = let w' := {| db := db w; txn := txn w;
                 calls := calls w ++ [PresignedGetObject (Object.bucket obj)
                                        (Object.key obj)] |} in
    match presigned_get_object m (Object.bucket obj) (Object.key obj) with
    | Return url => (Return (Object.with_url obj url), w')
    | Raise e => (Raise e, w')
    end.
Proof.
  unfold attach_pre_signed_url, call_presigned_get_object, record_call. run.
  by destruct (presigned_get_object _ _ _).
Qed.

Lemma for_each_cons {A B : Type} (f : A → M B) x xs w :
  for_each f (x :: xs) w
  = match f x w with
    | (Return y, w1) =>
        match for_each f xs w1 with
        | (Return ys, w2) => (Return (y :: ys), w2)
        | (Raise e, w2) => (Raise e, w2)
        end
    | (Raise e, w1) => (Raise e, w1)
    end.
Proof.
  cbn [for_each]. unfold mbind, M_bind, mret, M_ret.
  destruct (f x w) as [[y|e] w1]; [|done].
  by destruct (for_each f xs w1) as [[ys|e] w2].
Qed.

(** The loop stops at the first object whose URL cannot be obtained. *)
Lemma for_each_attach_fails m (objs : list Object.t) w :
  (∃ obj, obj ∈ objs
          ∧ ∃ e, presigned_get_object m (Object.bucket obj) (Object.key obj)
                 = Raise e) →
  ∃ obj e w',
    obj ∈ objs
    ∧ presigned_get_object m (Object.bucket obj) (Object.key obj) = Raise e
    ∧ for_each (attach_pre_signed_url presigned_get_object m) objs w
      = (Raise e, w')
    ∧ db w' = db w.
Proof.
  revert w. induction objs as [|o objs IH]; intros w (obj & Hin & e & He).
  - by apply elem_of_nil in Hin.
  - rewrite for_each_cons, attach_pre_signed_url_run. cbv zeta.
    destruct (presigned_get_object m (Object.bucket o) (Object.key o))
      as [url|e0] eqn:Eo.
    + assert (obj ∈ objs) as Hin'.
      { apply elem_of_cons in Hin as [->|?]; [congruence|done]. }
      edestruct IH as (obj1 & e1 & w' & H1 & H2 & H3 & H4); [by eauto|].
      rewrite H3. exists obj1, e1, w'.
      split; [by right|]. split; [done|]. split; [done|]. exact H4.
    + exists o, e0. eexists. split; [by left|]. split; [done|]. done.
Qed.

Lemma objects_missing_process id w :
  select_IngestProcess id (db w) = None →
  get_ingest_process_objects environ Minio presigned_get_object id w
  = (Raise (AttributeError
              "'NoneType' object has no attribute 'object_group_id'"),
     {| db := db w; txn := db w; calls := calls w |}).
Proof.
  intros H. unfold get_ingest_process_objects, async_session. run.
  rewrite H. done.
Qed.

(** C7: listing the objects of an existing process whose object group
    holds no object returns the empty list; no call to the object store is
    made and the database is left as it was. *)
Theorem objects_empty_group_no_call id w p g :
  select_IngestProcess id (db w) = Some p →
  select_ObjectGroup (IngestProcessSchema.object_group_id p) (db w) = Some g →
  objects g = [] →
  let res := get_ingest_process_objects environ Minio presigned_get_object id w in
  res.1 = Return [] ∧ calls res.2 = calls w ∧ db res.2 = db w.
Proof.
  intros Hp Hg He. unfold get_ingest_process_objects, async_session. run.
  rewrite Hp. cbn. rewrite Hg. cbn. rewrite He. done.
Qed.

(** C5: when the object group of the process holds at least one object
    and the request for a pre-signed URL fails for one of its objects on the
    client that the route builds, the listing raises a 500 whose detail
    carries the text of the underlying exception (a missing credential, the
    client that could not be built, or the failed request for one of the
    objects); no list is returned and the database is left as it was. *)
Theorem objects_all_or_nothing id w p g :
  select_IngestProcess id (db w) = Some p →
  select_ObjectGroup (IngestProcessSchema.object_group_id p) (db w) = Some g →
  objects g ≠ [] →
  (∀ o ak sk m,
     head (objects g) = Some o →
     environ !! "access_key" = Some ak → environ !! "secret_key" = Some sk →
     Minio (Object.host o) ak sk = Return m →
     ∃ obj e, obj ∈ objects g
              ∧ presigned_get_object m (Object.bucket obj) (Object.key obj)
                = Raise e) →
  let res := get_ingest_process_objects environ Minio presigned_get_object id w in
  ∃ cause,
    res.1 = Raise (HTTPException 500
                     ("Failed to get secure url for object: "
                        +:+ exn_str cause))
    ∧ db res.2 = db w
    ∧ (cause = KeyError "access_key" ∧ environ !! "access_key" = None
       ∨ cause = KeyError "secret_key" ∧ environ !! "secret_key" = None
       ∨ (∃ o ak sk, head (objects g) = Some o
                     ∧ Minio (Object.host o) ak sk = Raise cause)
       ∨ (∃ o ak sk m obj,
            head (objects g) = Some o
            ∧ Minio (Object.host o) ak sk = Return m
            ∧ obj ∈ objects g
            ∧ presigned_get_object m (Object.bucket obj) (Object.key obj)
              = Raise cause)).
Proof.
  intros Hp Hg Hne Hfail.
  unfold get_ingest_process_objects, async_session. run'.
  rewrite Hp. cbn -[for_each]. rewrite Hg. cbn -[for_each].
  destruct (objects g) as [|o objs] eqn:Eobjs; [done|].
  cbn -[for_each]. rewrite decide_False by done.
  unfold try_except, environ_get. run'.
  destruct (environ !! "access_key") as [ak|] eqn:Eak; cbn -[for_each].
  2:{ exists (KeyError "access_key"). eauto. }
  destruct (environ !! "secret_key") as [sk|] eqn:Esk; cbn -[for_each].
  2:{ exists (KeyError "secret_key"). eauto 6. }
  unfold new_Minio, record_call. run'.
  destruct (Minio (Object.host o) ak sk) as [m|e] eqn:Em; cbn -[for_each].
  2:{ exists e. split; [done|]. split; [done|]. right. right. left.
      exists o, ak, sk. done. }
  destruct (Hfail o ak sk m eq_refl eq_refl eq_refl Em) as (obj & e & Hin & He).
  match goal with
  | |- context [for_each _ (o :: objs) ?W] =>
      destruct (for_each_attach_fails m (o :: objs) W)
        as (obj1 & e1 & w' & H1 & H2 & H3 & H4); [by eauto|]
  end.
  rewrite H3. cbn. exists e1. split; [done|].
  split; [by rewrite H4|]. right. right. right.
  exists o, ak, sk, m, obj1. done.
Qed.

End Objects.

Lemma objects_empty_group_no_call_witness :
  let res := get_ingest_process_objects sample_environ sample_Minio
               sample_presign 1 (world_of (store1 [])) in
  res.1 = Return [] ∧ calls res.2 = [] ∧ db res.2 = store1 [].
Proof.
  exact (objects_empty_group_no_call sample_environ sample_Minio sample_presign
           1 (world_of (store1 [])) process1
           {| og_id := 1; objects := [] |} eq_refl eq_refl eq_refl).
Defined.

Lemma objects_all_or_nothing_witness :
  let objs := [object1 "a.tif"; object1 "broken"] in
  ∃ cause,
    (get_ingest_process_objects sample_environ sample_Minio
       sample_presign_host 1 (world_of (store1 objs))).1
    = Raise (HTTPException 500
               ("Failed to get secure url for object: " +:+ exn_str cause)).
Proof.
  intros objs.
  destruct (objects_all_or_nothing sample_environ sample_Minio
              sample_presign_host 1 (world_of (store1 objs)) process1
              {| og_id := 1; objects := objs |} eq_refl eq_refl)
    as (cause & H & _).
  - discriminate.
  - intros o ak sk m Hhd _ _ Hm. injection Hhd as <-. injection Hm as <-.
    exists (object1 "broken"), (OtherError "connection refused").
    split; [right; left|reflexivity].
  - exists cause. exact H.
Defined.

(** C4: listing the objects of an id that matches no process ends in an
    [AttributeError] on the missing row, not in a 404: here on the empty
    database. *)
Theorem objects_missing_process_attribute_error
    (environ : gmap string string) {MinioClient : Type}
    (Minio : string → string → string → outcome MinioClient)
    (presigned_get_object : MinioClient → string → string → outcome string) :
  (get_ingest_process_objects environ Minio presigned_get_object 1
     (world_of store0)).1
  = Raise (AttributeError
             "'NoneType' object has no attribute 'object_group_id'").
Proof. by rewrite objects_missing_process. Qed.

(** ** Validation of request bodies *)

Section ValidationFacts.
Context (IngestState : list string) (str_as_int : string → option Z).







(** Every validated [Post] or [Patch] is an instance built from typed field
    values. *)
Lemma model_validate_construct cls schema body object :
  IngestProcessModel.model_validate str_as_int cls schema body = Return object →
  ∃ kwargs, IngestProcessModel.validated_fields str_as_int schema body
            = Some kwargs
            ∧ object = IngestProcessModel.model_construct cls (schema.*1) kwargs.
Proof.
  unfold IngestProcessModel.model_validate.
  destruct (IngestProcessModel.validated_fields str_as_int schema body);
    intros; simplify_eq; eauto.
Qed.

(** Every validated [Post] is a [Post] instance of field values, and every
    validated [Patch] a [Patch] instance: what is proved of [Post kwargs] and
    [Patch kwargs] for every [kwargs] holds of every request that passes
    validation. *)
Lemma Post_validate_is_Post body object :
  IngestProcessModel.Post_validate IngestState str_as_int body = Return object →
  ∃ kwargs, object = IngestProcessModel.Post kwargs.
Proof.
  intros H. apply model_validate_construct in H as (kwargs & _ & ->).
  by exists kwargs.
Qed.

Lemma Patch_validate_is_Patch body object :
  IngestProcessModel.Patch_validate IngestState str_as_int body = Return object →
  ∃ kwargs, object = IngestProcessModel.Patch kwargs.
Proof.
  intros H. apply model_validate_construct in H as (kwargs & _ & ->).
  by exists kwargs.
Qed.




End ValidationFacts.

(** The string ["7"] given for [source_id] is converted to the integer, and
    an integer given for [comments] is refused. *)
Example Patch_validate_converts :
  IngestProcessModel.Patch_validate sample_IngestState sample_str_as_int
    {["source_id" := PStr "7"]}
  = Return (IngestProcessModel.Patch {["source_id" := PInt 7]}).
Proof. vm_compute. reflexivity. Qed.

Example Patch_validate_refuses :
  IngestProcessModel.Patch_validate sample_IngestState sample_str_as_int
    {["comments" := PInt 5]}
  = Raise (ValidationError "validation error for Patch").
Proof. vm_compute. reflexivity. Qed.

(** The body of the creation scenario validates to the [Post] instance of
    its declared fields; its [tags] are dropped. *)
Example Post_validate_scenario :
  IngestProcessModel.Post_validate sample_IngestState sample_str_as_int
    scenario_body
  = Return (IngestProcessModel.Post scenario_body).
Proof. vm_compute. reflexivity. Qed.

(** ** The create route *)

Ltac run_create :=
  unfold mbind, M_bind, mret, M_ret, session_execute, session_query,
         session_commit, lift, raise;
  cbn -[IngestProcessModel.getattr IngestProcessModel.delattr
        IngestProcessModel.model_dump iter_strings IngestProcessSchema_new
        insert_IngestProcess select_Sources].

(** When the request object has no [tags] attribute the route stops there,
    after the commit of the object group. *)
Lemma create_without_tags object w e :
  IngestProcessModel.getattr object "tags" = Raise e →
  create_ingest_process object true w
  = (Raise e, {| db := with_new_ObjectGroup (db w);
                 txn := with_new_ObjectGroup (db w); calls := calls w |}).
Proof.
  intros H. unfold create_ingest_process, async_session. run_create.
  rewrite H. done.
Qed.

(** A transient process whose [source_id] names no source cannot be
    flushed. *)
Lemma insert_unknown_source p s x :
  t_kwargs p !! "source_id" = Some (PInt x) → x ∉ Sources s →
  ∃ e, insert_IngestProcess p s = Raise e.
Proof.
  intros Hk Hx. unfold insert_IngestProcess.
  destruct (IngestProcessSchema.values _ _) as [r|] eqn:Ev; [|eauto].
  pose proof (values_assigned _ _ _ _ _ Ev Hk) as Hget.
  apply get_source_id in Hget. unfold source_fk_ok. rewrite Hget.
  rewrite bool_decide_eq_false_2 by done. eauto.
Qed.

(** Whatever the request object, a create call for an unknown source
    fails, persists no process and no tag row, and leaves the object group
    of its first commit behind. *)
Lemma create_unknown_source_fails object w x :
  IngestProcessModel.getattr object "source_id" = Return (PInt x) →
  x ∉ Sources (db w) →
  let res := create_ingest_process object true w in
  (∃ e, res.1 = Raise e)
  ∧ IngestProcess (db res.2) = IngestProcess (db w)
  ∧ IngestProcessTags (db res.2) = IngestProcessTags (db w)
  ∧ ObjectGroup (db res.2)
    = (ObjectGroup (db w) ++ [next_object_group_id (db w)])%list.
Proof.
  intros Hsrc Hx res. subst res.
  unfold create_ingest_process, async_session. run_create.
  destruct (IngestProcessModel.getattr object "tags") as [v|e] eqn:Etags;
    [|cbn; eauto].
  destruct (iter_strings v) as [tags|e]; [|cbn; eauto].
  destruct (IngestProcessModel.delattr object "tags") as [object'|e] eqn:Edel;
    [|cbn; eauto].
  destruct (IngestProcessSchema_new _ _ _) as [p|e] eqn:Enew; [|cbn; eauto].
  assert (t_kwargs p !! "source_id" = Some (PInt x)) as Hk.
  { unfold IngestProcessSchema_new in Enew.
    repeat case_decide; simplify_eq. cbn [t_kwargs].
    unfold IngestProcessModel.delattr in Edel.
    destruct (IngestProcessModel.fields object !! "tags"); simplify_eq.
    unfold IngestProcessModel.model_dump. cbn [IngestProcessModel.fields].
    rewrite lookup_delete_ne by done.
    unfold IngestProcessModel.getattr in Hsrc.
    destruct (IngestProcessModel.fields object !! "source_id"); by simplify_eq. }
  destruct (insert_unknown_source p (with_new_ObjectGroup (db w)) x Hk Hx)
    as [e He].
  unfold with_new_ObjectGroup in He. rewrite He. cbn. eauto.
Qed.

Section CreateUnknownSource.
Context (IngestState : list string) (str_as_int : string → option Z).


End CreateUnknownSource.



(** The foreign key alone already leaves the object group behind: a request
    object that does carry [tags] and names an unknown source fails at the
    second write, after the first has been committed. *)
Example create_with_tags_unknown_source :
  let object :=
    {| IngestProcessModel.class_name := "Post";
       IngestProcessModel.fields :=
         <["tags" := PList [PStr "batch-1"]]> {["source_id" := PInt 8]};
       IngestProcessModel.fields_set := {["source_id"; "tags"]} |} in
  let res := create_ingest_process object true (world_of store0) in
  res.1 = Raise (IntegrityError "violates foreign key constraint on source_id")
  ∧ ObjectGroup (db res.2) = [1] ∧ IngestProcess (db res.2) = [].
Proof. vm_compute. done. Qed.

(** Whatever the request body, the create route ends in an
    [AttributeError]: the [Post] model declares no [tags] field. *)
Lemma create_Post_raises kwargs w :
  create_ingest_process (IngestProcessModel.Post kwargs) true w
  = (Raise (AttributeError "'Post' object has no attribute 'tags'"),
     {| db := with_new_ObjectGroup (db w);
        txn := with_new_ObjectGroup (db w); calls := calls w |}).
Proof. apply create_without_tags, Post_has_no_tags. Qed.

(** Every request body that validates as a [Post] ends the same way. *)
Lemma create_validated_Post_raises IngestState str_as_int body object w :
  IngestProcessModel.Post_validate IngestState str_as_int body = Return object →
  create_ingest_process object true w
  = (Raise (AttributeError "'Post' object has no attribute 'tags'"),
     {| db := with_new_ObjectGroup (db w);
        txn := with_new_ObjectGroup (db w); calls := calls w |}).
Proof.
  intros H. apply Post_validate_is_Post in H as [kwargs ->].
  apply create_Post_raises.
Qed.

(** C3: the creation scenario ([state] PENDING, source 7, tags
    ["batch-1"], source 7 known) does not return a process tagged
    ["batch-1"]: the route raises an [AttributeError] on [object.tags],
    persists no process and no tag row, and leaves the object group it has
    committed. *)
Theorem create_scenario_attribute_error :
  let res := create_ingest_process (IngestProcessModel.Post scenario_body)
               true (world_of store0) in
  res.1 = Raise (AttributeError "'Post' object has no attribute 'tags'")
  ∧ IngestProcess (db res.2) = []
  ∧ IngestProcessTags (db res.2) = []
  ∧ ObjectGroup (db res.2) = [1].
Proof. cbv zeta. rewrite create_Post_raises. done. Qed.

(** ** Further properties of the routes *)

(** The routes that write consult the access gate first: without access
    each of them raises the 403 and leaves the world as it was: no write, no
    commit, no call to the object store. *)
Theorem forbidden_without_access ev object id tag t w :
  create_ingest_process object false w = (Raise forbidden, w)
  ∧ patch_ingest_process ev id object false w = (Raise forbidden, w)
  ∧ add_ingest_process_tag id tag false w = (Raise forbidden, w)
  ∧ delete_ingest_process_tag id t false w = (Raise forbidden, w).
Proof. repeat split. Qed.

(** Get-by-id never writes; it returns the first row carrying the id, and
    raises the 404 naming the id when there is none. *)
Theorem get_ingest_process_found_or_404 id w :
  let res := get_ingest_process id w in
  db res.2 = db w ∧ calls res.2 = calls w
  ∧ ((∃ r, res.1 = Return r ∧ IngestProcessSchema.id r = id
           ∧ r ∈ IngestProcess (db w))
     ∨ (res.1 = Raise (HTTPException 404
                         ("IngestProcess with id (" +:+ pretty id
                            +:+ ") not found"))
        ∧ ∀ r, r ∈ IngestProcess (db w) → IngestProcessSchema.id r ≠ id)).
Proof.
  unfold get_ingest_process, async_session. run.
  destruct (select_IngestProcess id (db w)) as [r|] eqn:E; cbn.
  - split; [done|]. split; [done|]. left. exists r. split; [done|].
    unfold select_IngestProcess in E. apply head_Some_elem_of in E.
    apply list_elem_of_filter in E as [? ?]. done.
  - split; [done|]. split; [done|]. right. split; [done|].
    intros r Hr Hid. unfold select_IngestProcess in E. apply head_None in E.
    assert (r ∈ filter (λ r, IngestProcessSchema.id r = id) (IngestProcess (db w)))
      as Hin by (by apply list_elem_of_filter).
    rewrite E in Hin. by apply elem_of_nil in Hin.
Qed.

(** A page of the listing holds at most [page_size] rows, each of them a
    row of the table that satisfies the filter; the listing never writes. *)
Theorem get_multiple_page_bounded (page page_size : Z) where_expressions w :
  (0 ≤ page)%Z → (0 ≤ page_size)%Z →
  let res := get_multiple_ingest_process page page_size where_expressions w in
  ∃ rows, res.1 = Return rows
          ∧ (Z.of_nat (length rows) ≤ page_size)%Z
          ∧ (∀ r, r ∈ rows → r ∈ IngestProcess (db w)
                             ∧ where_expressions r = true)
          ∧ db res.2 = db w.
Proof.
  intros Hp Hs. unfold get_multiple_ingest_process, async_session, select_page.
  run. rewrite decide_False by nia. cbn. eexists. split; [done|].
  split; [|split; [|done]].
  - rewrite length_take. lia.
  - intros r Hr. apply subseteq_take, subseteq_drop in Hr.
    by apply list_elem_of_filter in Hr as [? ?].
Qed.

Lemma get_multiple_page_bounded_witness :
  ∃ rows, (get_multiple_ingest_process 0 50 (λ _, true)
             (world_of (store1 []))).1 = Return rows
          ∧ (Z.of_nat (length rows) ≤ 50)%Z.
Proof.
  destruct (get_multiple_page_bounded 0 50 (λ _, true) (world_of (store1 [])))
    as (rows & H1 & H2 & _); [lia|lia|].
  exists rows. split; [exact H1|exact H2].
Defined.


(** ** Further properties of the tag routes *)

Lemma filter_filter_implies {A : Type} (P Q : A → Prop)
    `{∀ x, Decision (P x)} `{∀ x, Decision (Q x)} (l : list A) :
  (∀ x, P x → Q x) → filter P (filter Q l) = filter P l.
Proof.
  intros HPQ. induction l as [|x l IH]; [done|].
  rewrite (filter_cons Q). destruct (decide (Q x)) as [HQ|HQ].
  - rewrite !filter_cons. by rewrite IH.
  - rewrite IH, filter_cons. rewrite decide_False; [done|]. auto.
Qed.

(** Add-tag on an existing process writes exactly one tag row, after the
    rows already there, and returns the earlier tags of the process followed
    by the new one, whether or not the process already carries that tag. *)
Theorem add_tag_appends id t w p :
  select_IngestProcess id (db w) = Some p →
  let res := add_ingest_process_tag id t true w in
  res.1 = Return (tag_list id (db w) ++ [IngestProcessModel.tag t])%list
  ∧ IngestProcessTags (db res.2)
    = (IngestProcessTags (db w) ++ [tag_row id (IngestProcessModel.tag t)])%list
  ∧ IngestProcess (db res.2) = IngestProcess (db w).
Proof.
  intros Hp res. subst res. rewrite (add_ingest_process_tag_run _ _ _ _ Hp).
  cbn. unfold tag_list, select_tags. cbn.
  rewrite filter_app, filter_cons, filter_nil. cbn.
  rewrite decide_True by done. rewrite fmap_app. done.
Qed.

Lemma add_tag_appends_witness :
  (add_ingest_process_tag 1 {| IngestProcessModel.tag := "alpha" |} true
     (world_of (store1 []))).1
  = Return ["alpha"; "alpha"].
Proof.
  exact (proj1 (add_tag_appends 1 {| IngestProcessModel.tag := "alpha" |}
                  (world_of (store1 [])) process1 eq_refl)).
Defined.

(** Both tag routes raise the 404 naming the id when no process carries it,
    and write nothing. *)
Theorem tag_routes_missing_process id tag t w :
  select_IngestProcess id (db w) = None →
  let w' := {| db := db w; txn := db w; calls := calls w |} in
  add_ingest_process_tag id tag true w = (Raise (not_found id), w')
  ∧ delete_ingest_process_tag id t true w = (Raise (not_found id), w').
Proof.
  intros H. unfold add_ingest_process_tag, delete_ingest_process_tag,
    async_session. run. rewrite H. done.
Qed.

Lemma tag_routes_missing_process_witness :
  (add_ingest_process_tag 5 {| IngestProcessModel.tag := "a" |} true
     (world_of store0)).1
  = Raise (HTTPException 404 "IngestProcess with id (5) not found").
Proof.
  pose proof (tag_routes_missing_process 5 {| IngestProcessModel.tag := "a" |}
                "a" (world_of store0) eq_refl) as [H _].
  rewrite H. reflexivity.
Defined.

(** Delete-tag is idempotent: a second call with the same tag returns what
    the first returned and leaves the tag table as the first left it. *)
Theorem delete_tag_idempotent id t w p :
  select_IngestProcess id (db w) = Some p →
  let res1 := delete_ingest_process_tag id t true w in
  let res2 := delete_ingest_process_tag id t true res1.2 in
  res2.1 = res1.1
  ∧ IngestProcessTags (db res2.2) = IngestProcessTags (db res1.2).
Proof.
  intros Hp res1 res2. subst res2 res1.
  rewrite (delete_ingest_process_tag_run _ _ _ _ Hp). cbn [fst snd].
  erewrite delete_ingest_process_tag_run by exact Hp. cbn.
  unfold tag_list, select_tags. cbn.
  rewrite (filter_filter_implies _ _ (IngestProcessTags (db w))) by done.
  done.
Qed.

Lemma delete_tag_idempotent_witness :
  let res1 := delete_ingest_process_tag 1 "alpha" true (world_of (store1 [])) in
  (delete_ingest_process_tag 1 "alpha" true res1.2).1 = res1.1.
Proof.
  exact (proj1 (delete_tag_idempotent 1 "alpha" (world_of (store1 []))
                  process1 eq_refl)).
Defined.

(** The tag routes touch the tags of the addressed process only: the tag
    list of any other process is the same after add-tag and after
    delete-tag. *)
Theorem tag_routes_frame id id' tag t w :
  id' ≠ id →
  tag_list id' (db (add_ingest_process_tag id tag true w).2)
  = tag_list id' (db w)
  ∧ tag_list id' (db (delete_ingest_process_tag id t true w).2)
    = tag_list id' (db w).
Proof.
  intros Hne.
  destruct (select_IngestProcess id (db w)) as [p|] eqn:Hp.
  - rewrite (add_ingest_process_tag_run _ _ _ _ Hp),
            (delete_ingest_process_tag_run _ _ _ _ Hp).
    cbn. unfold tag_list, select_tags. cbn. split.
    + rewrite filter_app, filter_cons, filter_nil. cbn.
      rewrite decide_False by done. by rewrite app_nil_r.
    + rewrite filter_filter_implies; [done|]. intros x Hx [? _]. congruence.
  - destruct (tag_routes_missing_process id tag t w Hp) as [-> ->]. done.
Qed.

Lemma tag_routes_frame_witness :
  tag_list 2 (db (add_ingest_process_tag 1 {| IngestProcessModel.tag := "b" |}
                    true (world_of (store1 []))).2)
  = [].
Proof.
  pose proof (tag_routes_frame 1 2 {| IngestProcessModel.tag := "b" |} "b"
                (world_of (store1 []))) as [H _]; [lia|].
  rewrite H. reflexivity.
Defined.

(** ** Further properties of the objects listing *)

Section ObjectsMore.
Context (environ : gmap string string).
Context {MinioClient : Type}.
Context (Minio : string → string → string → outcome MinioClient).
Context (presigned_get_object : MinioClient → string → string → outcome string).


(** The loop issues no request after the first one that fails. *)
Lemma for_each_attach_stop m (pre post : list Object.t) bad e w :
  Forall (λ obj, ∃ url, presigned_get_object m (Object.bucket obj)
                          (Object.key obj) = Return url) pre →
  presigned_get_object m (Object.bucket bad) (Object.key bad) = Raise e →
  for_each (attach_pre_signed_url presigned_get_object m)
    (pre ++ bad :: post)%list w
  = (Raise e, add_calls w (presign_call <$> (pre ++ [bad])%list)).
Proof.
  revert w. induction pre as [|o pre IH]; intros w Hall Hbad.
  - cbn [app]. rewrite for_each_cons, attach_pre_signed_url_run. cbv zeta.
    by rewrite Hbad.
  - apply Forall_cons in Hall as [[url Hurl] Hall].
    rewrite <- !app_comm_cons.
    rewrite for_each_cons, attach_pre_signed_url_run. cbv zeta. rewrite Hurl.
    rewrite (IH _ Hall Hbad). unfold add_calls, presign_call. cbn.
    by rewrite <- app_assoc.
Qed.

Lemma objects_loaded id w p g :
  select_IngestProcess id (db w) = Some p →
  select_ObjectGroup (IngestProcessSchema.object_group_id p) (db w) = Some g →
  get_ingest_process_objects environ Minio presigned_get_object id w
  = let w0 := {| db := db w; txn := db w; calls := calls w |} in
    if decide (length (objects g) = 0%nat) then (Return [], w0)
    else
      try_except (
        first_object ← lift (first (objects g));
        access_key ← lift (environ_get environ "access_key");
        secret_key ← lift (environ_get environ "secret_key");
        m ← new_Minio Minio (Object.host first_object) access_key secret_key;
        for_each (attach_pre_signed_url presigned_get_object m) (objects g))
        (λ e, raise (HTTPException 500
                       ("Failed to get secure url for object: " +:+ exn_str e)))
        w0.
Proof.
  intros Hp Hg. unfold get_ingest_process_objects, async_session.
  unfold mbind at 1, M_bind at 1. run'. rewrite Hp. cbn -[for_each].
  rewrite Hg. cbn -[for_each]. by case_decide.
Qed.


(** The listing stops at the first object whose URL cannot be obtained: the
    500 carries the text of that failure, and no URL is asked for the objects
    that follow. *)
Theorem objects_stop_at_first_failure id w p g o pre bad post e ak sk m :
  select_IngestProcess id (db w) = Some p →
  select_ObjectGroup (IngestProcessSchema.object_group_id p) (db w) = Some g →
  objects g = (pre ++ bad :: post)%list →
  environ !! "access_key" = Some ak → environ !! "secret_key" = Some sk →
  head (objects g) = Some o → Minio (Object.host o) ak sk = Return m →
  Forall (λ obj, ∃ url, presigned_get_object m (Object.bucket obj)
                          (Object.key obj) = Return url) pre →
  presigned_get_object m (Object.bucket bad) (Object.key bad) = Raise e →
  let res := get_ingest_process_objects environ Minio presigned_get_object id w in
  res.1 = Raise (HTTPException 500
                   ("Failed to get secure url for object: " +:+ exn_str e))
  ∧ calls res.2
    = (calls w
         ++ MinioInit (Object.host o) ak sk
         :: (presign_call <$> (pre ++ [bad])))%list
  ∧ db res.2 = db w.
Proof.
  intros Hp Hg Ho Hak Hsk Hhd Hm Hall Hbad res. subst res.
  rewrite (objects_loaded _ _ _ _ Hp Hg). cbv zeta.
  rewrite decide_False by (rewrite Ho, length_app; cbn; lia).
  unfold try_except, environ_get, new_Minio, record_call.
  destruct (objects g) as [|o' objs] eqn:Eg; [by destruct pre|].
  cbn in Hhd. injection Hhd as ->. run'. rewrite Hak. cbn -[for_each]. rewrite Hsk.
  cbn -[for_each]. rewrite Hm. cbn -[for_each].
  rewrite Ho, (for_each_attach_stop m pre post bad e _ Hall Hbad).
  unfold add_calls. cbn. rewrite <- app_assoc. done.
Qed.

(** Without the access key in the environment the listing of a non-empty
    group raises the 500 on the missing key before any call to the object
    store. *)
Theorem objects_missing_credentials id w p g :
  select_IngestProcess id (db w) = Some p →
  select_ObjectGroup (IngestProcessSchema.object_group_id p) (db w) = Some g →
  objects g ≠ [] →
  environ !! "access_key" = None →
  let res := get_ingest_process_objects environ Minio presigned_get_object id w in
  res.1 = Raise (HTTPException 500
                   "Failed to get secure url for object: 'access_key'")
  ∧ calls res.2 = calls w ∧ db res.2 = db w.
Proof.
  intros Hp Hg Ho Hak res. subst res.
  rewrite (objects_loaded _ _ _ _ Hp Hg). cbv zeta.
  destruct (objects g) as [|o objs] eqn:Eg; [done|].
  rewrite decide_False by done.
  unfold try_except, environ_get. run'. rewrite Hak. done.
Qed.

Lemma for_each_attach_db m (objs : list Object.t) w :
  db (for_each (attach_pre_signed_url presigned_get_object m) objs w).2 = db w.
Proof.
  revert w. induction objs as [|o objs IH]; intros w; [done|].
  rewrite for_each_cons, attach_pre_signed_url_run. cbv zeta.
  destruct (presigned_get_object _ _ _); [|done].
  match goal with |- context [for_each ?f objs ?W] =>
    specialize (IH W); destruct (for_each f objs W) as [[?|?] ?] end; exact IH.
Qed.

(** The listing is read-only: whatever it returns or raises, the committed
    database is the one it started from. *)
Theorem objects_listing_read_only id w :
  db (get_ingest_process_objects environ Minio presigned_get_object id w).2
  = db w.
Proof.
  destruct (select_IngestProcess id (db w)) as [p|] eqn:Hp.
  2:{ by rewrite objects_missing_process. }
  destruct (select_ObjectGroup (IngestProcessSchema.object_group_id p) (db w))
    as [g|] eqn:Hg.
  2:{ unfold get_ingest_process_objects, async_session.
      unfold mbind at 1, M_bind at 1. run'. rewrite Hp. cbn -[for_each].
      rewrite Hg. done. }
  rewrite (objects_loaded _ _ _ _ Hp Hg). cbv zeta.
  case_decide; [done|].
  unfold try_except, environ_get, new_Minio, record_call.
  destruct (objects g) as [|o objs] eqn:Eg; [done|].
  run'. destruct (environ !! "access_key"); [|done]. cbn -[for_each].
  destruct (environ !! "secret_key"); [|done]. cbn -[for_each].
  destruct (Minio _ _ _) as [m|]; [|done]. cbn -[for_each].
  match goal with |- context [for_each ?f ?l ?W] =>
    pose proof (for_each_attach_db m l W) as Hdb;
    destruct (for_each f l W) as [[?|?] ?] end; exact Hdb.
Qed.

End ObjectsMore.

(** ** Further properties of the patch route *)

(** A patch that returns has updated the first row of the id, and that row
    is what the response shows. *)
Lemma patch_returns ev id object w response :
  IngestProcessModel.model_dump_exclude_unset object !! "id" = None →
  (patch_ingest_process ev id object true w).1 = Return response →
  ∃ r r',
    select_IngestProcess id (db w) = Some r
    ∧ IngestProcessSchema.values
        (IngestProcessModel.model_dump_exclude_unset object) r = Some r'
    ∧ response = Get_of r'
    ∧ select_IngestProcess id (db (patch_ingest_process ev id object true w).2)
      = Some r'.
Proof.
  rewrite patch_ingest_process_run.
  generalize (IngestProcessModel.model_dump_exclude_unset object).
  intros d Hid H.
  destruct (update_IngestProcess ev id d (db w)) as [[[r1|] s']|e] eqn:E;
    cbn in H.
  2,3: discriminate H.
  injection H as <-.
  apply update_IngestProcess_Return in E as (-> & updated & Hm & Hh).
  unfold select_IngestProcess.
  destruct (filter _ (IngestProcess (db w))) as [|r rest] eqn:Ef.
  { cbn in Hm. injection Hm as <-. cbn in Hh. discriminate Hh. }
  cbn in Hm. destruct (IngestProcessSchema.values d r) as [r'|] eqn:Ev; [|done].
  cbn in Hm. destruct (mapM _ rest) as [rest'|]; [|done].
  cbn in Hm. injection Hm as <-. cbn in Hh. injection Hh as ->.
  exists r, r'. cbn. split; [done|]. split; [done|]. split; [done|].
  rewrite filter_id_fmap by (intros; by apply patched_keeps_id).
  rewrite Ef. cbn. unfold patched.
  assert (IngestProcessSchema.id r = id) as Hi.
  { assert (r ∈ filter (λ r, IngestProcessSchema.id r = id)
                  (IngestProcess (db w))) as Hin by (rewrite Ef; left).
    by apply list_elem_of_filter in Hin as [? _]. }
  rewrite decide_True by done. by rewrite Ev.
Qed.

Lemma Patch_dump_undeclared kwargs c :
  c ∉ IngestProcessModel.Post_fields →
  IngestProcessModel.model_dump_exclude_unset (IngestProcessModel.Patch kwargs)
    !! c = None.
Proof.
  intros Hc. unfold IngestProcessModel.Patch.
  rewrite dump_exclude_unset_lookup. by rewrite decide_False.
Qed.

Lemma not_Post_field c :
  c ≠ "state" → c ≠ "comments" → c ≠ "source_id" → c ≠ "access_group_id" →
  c ∉ IngestProcessModel.Post_fields.
Proof.
  intros. unfold IngestProcessModel.Post_fields.
  rewrite !elem_of_cons, elem_of_nil. tauto.
Qed.

Lemma get_ingest_process_run id w :
  get_ingest_process id w
  = (match select_IngestProcess id (db w) with
     | Some r => Return r
     | None => Raise (not_found id)
     end, {| db := db w; txn := db w; calls := calls w |}).
Proof.
  unfold get_ingest_process, async_session. run.
  by destruct (select_IngestProcess id (db w)).
Qed.

(** Reading the row a patch has just returned gives that same row: the
    response of the patch and the following get-by-id agree. *)
Theorem patch_then_get ev kwargs id w response :
  let res := patch_ingest_process ev id (IngestProcessModel.Patch kwargs)
               true w in
  res.1 = Return response →
  ∃ r', (get_ingest_process id res.2).1 = Return r' ∧ Get_of r' = response.
Proof.
  intros res H. subst res.
  apply patch_returns in H as (r & r' & _ & _ & -> & Hsel);
    [|by apply Patch_dump_undeclared, not_Post_field].
  exists r'. split; [|done].
  rewrite get_ingest_process_run, Hsel. done.
Qed.

Lemma patch_then_get_witness :
  ∃ r', (get_ingest_process 1
           (patch_ingest_process None 1
              (IngestProcessModel.Patch {["comments" := PStr "x"]}) true
              (world_of (store1 []))).2).1 = Return r'
        ∧ IngestProcessSchema.comments r' = Some "x".
Proof.
  destruct (patch_then_get None {["comments" := PStr "x"]} 1
              (world_of (store1 []))
              (Get_of {| IngestProcessSchema.id := 1;
                         IngestProcessSchema.state := Some "PENDING";
                         IngestProcessSchema.comments := Some "x";
                         IngestProcessSchema.source_id := Some 7;
                         IngestProcessSchema.access_group_id := None;
                         IngestProcessSchema.object_group_id := 1;
                         IngestProcessSchema.created_on := 100;
                         IngestProcessSchema.completed_on := None |}))
    as (r' & H1 & H2).
  - vm_compute. reflexivity.
  - exists r'. split; [exact H1|].
    apply (f_equal IngestProcessModel.comments) in H2. exact H2.
Defined.

(** No request body makes the patch route change the columns the model
    does not declare: a patch that returns leaves [id], [object_group_id],
    [created_on] and [completed_on] of the row as they were. *)
Theorem patch_keeps_server_columns ev kwargs id w response :
  let res := patch_ingest_process ev id (IngestProcessModel.Patch kwargs)
               true w in
  res.1 = Return response →
  ∃ r, select_IngestProcess id (db w) = Some r
       ∧ IngestProcessModel.id response = IngestProcessSchema.id r
       ∧ IngestProcessModel.object_group_id response
         = IngestProcessSchema.object_group_id r
       ∧ IngestProcessModel.created_on response
         = IngestProcessSchema.created_on r
       ∧ IngestProcessModel.completed_on response
         = IngestProcessSchema.completed_on r.
Proof.
  intros res H. subst res.
  apply patch_returns in H as (r & r' & Hsel & Hv & -> & _);
    [|by apply Patch_dump_undeclared, not_Post_field].
  assert (∀ c, c ∉ IngestProcessModel.Post_fields →
               IngestProcessSchema.get r' c = IngestProcessSchema.get r c) as Hf.
  { intros c Hc. eapply values_frame; [exact Hv|].
    by apply Patch_dump_undeclared. }
  clear Hv. exists r. split; [exact Hsel|].
  pose proof (Hf "id" ltac:(by apply not_Post_field)) as H1.
  pose proof (Hf "object_group_id" ltac:(by apply not_Post_field)) as H2.
  pose proof (Hf "created_on" ltac:(by apply not_Post_field)) as H3.
  pose proof (Hf "completed_on" ltac:(by apply not_Post_field)) as H4.
  clear Hf Hsel.
  unfold IngestProcessSchema.get in H1, H2, H3, H4. cbn in H1, H2, H3, H4.
  unfold Get_of. cbn.
  injection H1 as ->. injection H2 as ->. injection H3 as ->.
  injection H4 as H4.
  repeat split.
  destruct (IngestProcessSchema.completed_on r'),
           (IngestProcessSchema.completed_on r); cbn in H4; congruence.
Qed.

Lemma patch_keeps_server_columns_witness :
  ∃ r, select_IngestProcess 1 (store1 []) = Some r
       ∧ IngestProcessSchema.created_on r = 100.
Proof.
  destruct (patch_keeps_server_columns None
              {["comments" := PStr "x"]} 1 (world_of (store1 []))
              (Get_of {| IngestProcessSchema.id := 1;
                         IngestProcessSchema.state := Some "PENDING";
                         IngestProcessSchema.comments := Some "x";
                         IngestProcessSchema.source_id := Some 7;
                         IngestProcessSchema.access_group_id := None;
                         IngestProcessSchema.object_group_id := 1;
                         IngestProcessSchema.created_on := 100;
                         IngestProcessSchema.completed_on := None |}))
    as (r & H1 & _ & _ & H2 & _).
  - vm_compute. reflexivity.
  - exists r. split; [exact H1|]. symmetry. exact H2.
Defined.


Lemma objects_stop_at_first_failure_witness :
  let objs := [object1 "a.tif"; object1 "broken"; object1 "c.tif"] in
  let res := get_ingest_process_objects sample_environ sample_Minio
               sample_presign 1 (world_of (store1 objs)) in
  res.1 = Raise (HTTPException 500
                   "Failed to get secure url for object: connection refused")
  ∧ calls res.2
    = [MinioInit "store.example" "AK" "SK";
       PresignedGetObject "maps" "a.tif"; PresignedGetObject "maps" "broken"].
Proof.
  intros objs.
  destruct (objects_stop_at_first_failure sample_environ sample_Minio
              sample_presign 1 (world_of (store1 objs)) process1
              {| og_id := 1; objects := objs |} (object1 "a.tif")
              [object1 "a.tif"] (object1 "broken") [object1 "c.tif"]
              (OtherError "connection refused") "AK" "SK" "store.example"
              eq_refl eq_refl eq_refl eq_refl eq_refl eq_refl eq_refl)
    as (H1 & H2 & _).
  - repeat constructor; eexists; reflexivity.
  - reflexivity.
  - split; [exact H1|exact H2].
Defined.

Lemma objects_missing_credentials_witness :
  let res := get_ingest_process_objects ∅ sample_Minio sample_presign 1
               (world_of (store1 [object1 "a.tif"])) in
  res.1 = Raise (HTTPException 500
                   "Failed to get secure url for object: 'access_key'")
  ∧ calls res.2 = [] ∧ db res.2 = store1 [object1 "a.tif"].
Proof.
  apply (objects_missing_credentials ∅ sample_Minio sample_presign 1
           (world_of (store1 [object1 "a.tif"])) process1
           {| og_id := 1; objects := [object1 "a.tif"] |} eq_refl eq_refl).
  - discriminate.
  - reflexivity.
Defined.

Lemma Patch_dump_comments v :
  IngestProcessModel.model_dump_exclude_unset
    (IngestProcessModel.Patch {["comments" := v]})
  = {["comments" := v]}.
Proof.
  apply map_eq. intros c. unfold IngestProcessModel.Patch.
  rewrite dump_exclude_unset_lookup.
  destruct (decide (c = "comments")) as [->|Hne].
  - rewrite lookup_singleton_eq. reflexivity.
  - rewrite lookup_singleton_ne by done. by case_decide.
Qed.

Lemma values_comments v row :
  is_Some (IngestProcessSchema.to_str v) →
  is_Some (IngestProcessSchema.values {["comments" := v]} row).
Proof.
  intros [c Hc]. destruct v; try discriminate; vm_compute; eauto.
Qed.

(** An update that assigns something, not the source, and fits every row
    goes through. *)
Lemma update_IngestProcess_ok ev i d s :
  dom d ≠ ∅ → "source_id" ∉ dom d →
  (∀ r, is_Some (IngestProcessSchema.values d r)) →
  ∃ updated,
    mapM (IngestProcessSchema.values d)
      (filter (λ r, IngestProcessSchema.id r = i) (IngestProcess s))
    = Some updated
    ∧ update_IngestProcess ev i d s
      = Return (head updated,
                with_IngestProcess s (patched i d <$> IngestProcess s)
                  (next_ingest_process_id s)).
Proof.
  intros Hd Hs Hall. unfold update_IngestProcess.
  rewrite decide_False by done.
  destruct (mapM (IngestProcessSchema.values d)
              (filter (λ r, IngestProcessSchema.id r = i) (IngestProcess s)))
    as [updated|] eqn:E.
  - exists updated. split; [done|].
    rewrite (bool_decide_eq_false_2 _ Hs). done.
  - exfalso. assert (is_Some (mapM (IngestProcessSchema.values d)
              (filter (λ r, IngestProcessSchema.id r = i) (IngestProcess s))))
      as [? ?]; [|congruence].
    apply mapM_is_Some, Forall_forall. intros r _. apply Hall.
Qed.

(** The sparse-patch scenario: patching an existing process with only
    [comments] (a string or null) returns the updated row, with [comments]
    as given, null included, and every other column as it was, whatever the
    toolkit does on empty value sets. *)
Theorem patch_comments_only ev id w r v :
  select_IngestProcess id (db w) = Some r →
  is_Some (IngestProcessSchema.to_str v) →
  let res := patch_ingest_process ev id
               (IngestProcessModel.Patch {["comments" := v]}) true w in
  ∃ r', res.1 = Return (Get_of r')
        ∧ select_IngestProcess id (db res.2) = Some r'
        ∧ IngestProcessSchema.get r' "comments" = Some v
        ∧ ∀ c, c ≠ "comments" →
               IngestProcessSchema.get r' c = IngestProcessSchema.get r c.
Proof.
  intros Hsel Hv res.
  assert (∃ response, res.1 = Return response) as [response Hres].
  { subst res. rewrite patch_ingest_process_run, Patch_dump_comments.
    destruct (update_IngestProcess_ok ev id {["comments" := v]} (db w))
      as (updated & Hm & ->).
    - rewrite dom_singleton_L. set_solver.
    - rewrite dom_singleton_L. set_solver.
    - intros row. by apply values_comments.
    - unfold select_IngestProcess in Hsel.
      destruct (filter _ (IngestProcess (db w))) as [|r0 rest]; [done|].
      cbn in Hm. destruct (IngestProcessSchema.values _ r0); [|done].
      cbn in Hm. destruct (mapM _ rest); [|done].
      cbn in Hm. injection Hm as <-. cbn. eauto. }
  pose proof Hres as Hres'. subst res.
  apply patch_returns in Hres' as (r0 & r' & Hsel0 & Hval & -> & Hsel').
  2:{ rewrite Patch_dump_comments. by rewrite lookup_singleton_ne. }
  rewrite Hsel in Hsel0. injection Hsel0 as <-.
  rewrite Patch_dump_comments in Hval.
  exists r'. split; [done|]. split; [done|]. split.
  - eapply values_assigned; [done|]. by rewrite lookup_singleton_eq.
  - intros c Hc. eapply values_frame; [done|]. by rewrite lookup_singleton_ne.
Qed.

Lemma patch_comments_only_witness :
  ∃ r', (patch_ingest_process None 1
           (IngestProcessModel.Patch {["comments" := PNone]}) true
           (world_of (store1 []))).1 = Return (Get_of r')
        ∧ IngestProcessSchema.get r' "comments" = Some PNone.
Proof.
  destruct (patch_comments_only None 1 (world_of (store1 [])) process1 PNone
              eq_refl (ex_intro _ None eq_refl))
    as (r' & H1 & _ & H2 & _).
  exists r'. split; [exact H1|exact H2].
Defined.

(** ** The create route, whatever the request *)

(** With the [Post] model as declared, no request body gets a process
    created: every authorized call raises the [AttributeError] on
    [object.tags], persists no process and no tag row, and leaves behind
    exactly one new object group, carrying the next id of the sequence. *)
Theorem create_leaves_one_object_group kwargs w :
  let res := create_ingest_process (IngestProcessModel.Post kwargs) true w in
  res.1 = Raise (AttributeError "'Post' object has no attribute 'tags'")
  ∧ IngestProcess (db res.2) = IngestProcess (db w)
  ∧ IngestProcessTags (db res.2) = IngestProcessTags (db w)
  ∧ ObjectGroup (db res.2)
    = (ObjectGroup (db w) ++ [next_object_group_id (db w)])%list
  ∧ next_object_group_id (db res.2) = next_object_group_id (db w) + 1.
Proof.
  cbv zeta. rewrite (create_without_tags _ _ _ (Post_has_no_tags kwargs)).
  done.
Qed.
